(** * OSACA model importer: a shallow embedding of [osaca/data/model_importer.py]

    The importer reads the uops.info instruction document, and for one
    architecture builds a table of (instruction form, throughput, latency,
    port occupancy) rows.  This file embeds the Python functions of
    [model_importer.py] as Rocq functions and proves properties of them.

    Conventions of the embedding:
    - Python [str] is [string] (bytes; case mapping and whitespace are the
      ASCII ones), Python [int] is [Z];
    - a Python [float] is an IEEE 754 binary64 number: a [spec_float] of
      the Standard Library with 53 bits of precision, its operations
      rounding to nearest, ties to even; a number is an [int] or a [float];
    - a Python [dict] from port names to numbers is the list of its items
      in insertion order; an XML attribute dictionary is the list of its
      items in document order;
    - an exception is a value of [exn]; a function that may raise returns
      a [result]; lines printed on [sys.stderr] are collected in a list of
      [diagnostic]s. *)

From Stdlib Require Import ZArith QArith Ascii String List Lia SpecFloat.
From stdpp Require Import base decidable option numbers list sorting strings gmap fin_maps fin_sets.

Local Open Scope Z_scope.

(** ** Python values and exceptions *)

Abbreviation attributes := (list (string * string)).

(** An [xml.etree.ElementTree.Element]: tag, attribute dictionary, text
    ([None] when the element has no text) and children. *)
#[warnings="-register-all"]
Inductive element : Type :=
| Element (tag : string) (attrib : attributes) (text : option string)
          (children : list element).

Definition tag (e : element) : string := let 'Element t _ _ _ := e in t.
Definition attrib (e : element) : attributes := let 'Element _ a _ _ := e in a.
Definition text (e : element) : option string := let 'Element _ _ x _ := e in x.
Definition children (e : element) : list element := let 'Element _ _ _ c := e in c.

(** What a [ValueError] was raised for. *)
Inductive value_error : Type :=
| UnknownRegisterType (a : attributes) (t : string)
| UnknownParamterType (a : attributes)
| InvalidLiteral (s : string)
| InvalidVersion (s : string)
| MaxOfEmpty
| NotInList (s : string).

(** What an [OverflowError] was raised for. *)
Inductive overflow_error : Type :=
| DivisionResultTooLarge
| IntTooLargeForFloat.

Inductive exn : Type :=
| ValueError (why : value_error)
| IndexError
| KeyError (key : string)
| AttributeError
| UnboundLocalError (var : string)
| OverflowError (why : overflow_error)
| ZeroDivisionError.

Inductive result (A : Type) : Type :=
| Ok (a : A)
| Raise (e : exn).
Arguments Ok {A} a.
Arguments Raise {A} e.

Global Instance value_error_eq_dec : EqDecision value_error.
Proof. solve_decision. Defined.

Global Instance overflow_error_eq_dec : EqDecision overflow_error.
Proof. solve_decision. Defined.

Global Instance exn_eq_dec : EqDecision exn.
Proof. solve_decision. Defined.

Global Instance result_eq_dec {A} `{EqDecision A} : EqDecision (result A).
Proof. solve_decision. Defined.

Definition rbind {A B} (r : result A) (f : A -> result B) : result B :=
  match r with
  | Ok a => f a
  | Raise e => Raise e
  end.

Notation "x <- r ;; k" := (rbind r (fun x => k))
  (at level 100, r at next level, right associativity).

Fixpoint mapM {A B} (f : A -> result B) (l : list A) : result (list B) :=
  match l with
  | [] => Ok []
  | x :: l' => y <- f x ;; ys <- mapM f l' ;; Ok (y :: ys)
  end.

(** ** Strings *)

Module Str.

Definition code (c : ascii) : N := N_of_ascii c.

(** [str.isspace] on the ASCII range. *)
Definition is_space (c : ascii) : bool :=
  let n := code c in
  (((9 <=? n) && (n <=? 13)) || ((28 <=? n) && (n <=? 32)))%N.

Definition is_digit (c : ascii) : bool :=
  let n := code c in ((48 <=? n) && (n <=? 57))%N.

Definition digit_val (c : ascii) : Z := Z.of_N (code c) - 48.

Definition digit_char (d : Z) : ascii := ascii_of_N (Z.to_N (d + 48)).

Definition upper_char (c : ascii) : ascii :=
  let n := code c in
  if ((97 <=? n) && (n <=? 122))%N then ascii_of_N (n - 32) else c.

Definition lower_char (c : ascii) : ascii :=
  let n := code c in
  if ((65 <=? n) && (n <=? 90))%N then ascii_of_N (n + 32) else c.

Fixpoint map_chars (f : ascii -> ascii) (s : string) : string :=
  match s with
  | EmptyString => EmptyString
  | String c s' => String (f c) (map_chars f s')
  end.

(** [s.upper()], [s.lower()] *)
Definition upper : string -> string := map_chars upper_char.
Definition lower : string -> string := map_chars lower_char.

(** [s.lstrip()], [s.rstrip()], [s.strip()] *)
Fixpoint lstrip (s : string) : string :=
  match s with
  | EmptyString => EmptyString
  | String c s' => if is_space c then lstrip s' else s
  end.

Fixpoint rstrip (s : string) : string :=
  match s with
  | EmptyString => EmptyString
  | String c s' =>
      match rstrip s' with
      | EmptyString => if is_space c then EmptyString else String c EmptyString
      | r => String c r
      end
  end.

Definition strip (s : string) : string := rstrip (lstrip s).

(** [s.startswith(pre)] *)
Fixpoint startswith (pre s : string) : bool :=
  match pre, s with
  | EmptyString, _ => true
  | String _ _, EmptyString => false
  | String a pre', String b s' => Ascii.eqb a b && startswith pre' s'
  end.

(** [sub in s] *)
Fixpoint contains (sub s : string) : bool :=
  startswith sub s ||
  match s with
  | EmptyString => false
  | String _ s' => contains sub s'
  end.

(** [s.endswith(suf)] *)
Fixpoint endswith (suf s : string) : bool :=
  String.eqb s suf ||
  match s with
  | EmptyString => false
  | String _ s' => endswith suf s'
  end.

(** [s.replace(pat, '')] for a nonempty [pat]: the occurrences of [pat],
    found from left to right without overlap, are removed.  [skip] counts
    the characters of an occurrence that are still to be dropped. *)
Fixpoint remove_from (pat : string) (skip : nat) (s : string) : string :=
  match s with
  | EmptyString => EmptyString
  | String c s' =>
      match skip with
      | S k => remove_from pat k s'
      | O => if startswith pat s
             then remove_from pat (Nat.pred (String.length pat)) s'
             else String c (remove_from pat O s')
      end
  end.

Definition remove_all (pat s : string) : string := remove_from pat O s.

(** [s.split(sep)] for a one-character separator. *)
Fixpoint split (sep : ascii) (s : string) : list string :=
  match s with
  | EmptyString => [EmptyString]
  | String c s' =>
      let r := split sep s' in
      if Ascii.eqb c sep then EmptyString :: r
      else match r with
           | h :: t => String c h :: t
           | [] => [String c EmptyString]
           end
  end.

(** [sep.join(l)] *)
Definition join (sep : string) (l : list string) : string := String.concat sep l.

(** [s[n:]] *)
Fixpoint drop (n : nat) (s : string) : string :=
  match n, s with
  | O, _ => s
  | S _, EmptyString => EmptyString
  | S n', String _ s' => drop n' s'
  end.

(** [list(s)]: the one-character strings of [s]. *)
Fixpoint chars (s : string) : list string :=
  match s with
  | EmptyString => []
  | String c s' => String c EmptyString :: chars s'
  end.

(** The longest prefix of decimal digits, and what follows it. *)
Fixpoint span_digits (s : string) : string * string :=
  match s with
  | EmptyString => (EmptyString, EmptyString)
  | String c s' =>
      if is_digit c
      then let '(d, r) := span_digits s' in (String c d, r)
      else (EmptyString, s)
  end.

(** The number written by a string of digits, most significant first. *)
Fixpoint digits_value (s : string) (acc : Z) : Z :=
  match s with
  | EmptyString => acc
  | String c s' => digits_value s' (10 * acc + digit_val c)
  end.

(** The digits of the literal grammar of [int]: decimal digits, with single
    underscores allowed between two digits. *)
Fixpoint int_digits (s : string) (acc : Z) (after_digit : bool) : option Z :=
  match s with
  | EmptyString => if after_digit then Some acc else None
  | String c s' =>
      if is_digit c then int_digits s' (10 * acc + digit_val c) true
      else if Ascii.eqb c "_" && after_digit then int_digits s' acc false
      else None
  end.

(** [int(s)]: surrounding whitespace is dropped, then an optional sign and
    the digits; [None] stands for the [ValueError] of an invalid literal. *)
Definition to_int (s : string) : option Z :=
  match strip s with
  | String "+" r => int_digits r 0 false
  | String "-" r => Z.opp <$> int_digits r 0 false
  | r => int_digits r 0 false
  end.

(** [str(n)] for an [int]: the decimal digits, after a minus sign when the
    number is negative.  [fuel] bounds the number of digits. *)
Fixpoint digits_of (fuel : nat) (n : Z) (acc : string) : string :=
  let acc' := String (digit_char (n mod 10)) acc in
  match fuel with
  | O => acc'
  | S f => if n / 10 =? 0 then acc' else digits_of f (n / 10) acc'
  end.

Definition of_nonneg (n : Z) : string :=
  digits_of (Z.to_nat (Z.log2 n)) n EmptyString.

Definition of_int (n : Z) : string :=
  if n <? 0 then String "-" (of_nonneg (- n)) else of_nonneg n.

End Str.

(** [int(s)] as a fallible function. *)
Definition py_int (s : string) : result Z :=
  match Str.to_int s with
  | Some z => Ok z
  | None => Raise (ValueError (InvalidLiteral s))
  end.

(** ** Dictionaries of attributes *)

(** [k in d] and [d[k]] and [d.get(k, default)] for an attribute dictionary. *)
Fixpoint attr_lookup (k : string) (d : attributes) : option string :=
  match d with
  | [] => None
  | (k', v) :: d' => if String.eqb k' k then Some v else attr_lookup k d'
  end.

Definition attr_mem (k : string) (d : attributes) : bool :=
  match attr_lookup k d with Some _ => true | None => false end.

Definition attr_getitem (k : string) (d : attributes) : result string :=
  match attr_lookup k d with
  | Some v => Ok v
  | None => Raise (KeyError k)
  end.

Definition attr_get (k : string) (default : string) (d : attributes) : string :=
  match attr_lookup k d with
  | Some v => v
  | None => default
  end.

(** ** Lists the way Python slices and sorts them *)

(** [l[1:]] and [l[:-1]] *)
Definition slice_from_1 {A} (l : list A) : list A := tl l.
Definition slice_to_last {A} (l : list A) : list A := removelast l.

(** [sorted(l, key=...)]: a stable sort; [lt] is [<] on the keys.  An
    insertion sort that takes the elements from the last to the first and
    puts each one in front of the sorted rest, behind the elements of
    smaller key only: an element stays in front of the later elements of
    the same key. *)
Fixpoint insert_sorted {A K} (lt : K -> K -> bool) (key : A -> K)
    (x : A) (l : list A) : list A :=
  match l with
  | [] => [x]
  | y :: l' => if lt (key y) (key x) then y :: insert_sorted lt key x l'
               else x :: y :: l'
  end.

Definition sorted_by {A K} (lt : K -> K -> bool) (key : A -> K)
    (l : list A) : list A :=
  fold_right (insert_sorted lt key) [] l.

(** [l1 == l2] on lists, with [eqb] for [==] on the elements. *)
Fixpoint list_eqb {A} (eqb : A -> A -> bool) (l1 l2 : list A) : bool :=
  match l1, l2 with
  | [], [] => true
  | x :: l1', y :: l2' => eqb x y && list_eqb eqb l1' l2'
  | _, _ => false
  end.

(** A loop over [l] that updates [a] and may raise. *)
Fixpoint foldM {A B} (f : A -> B -> result A) (l : list B) (a : A) : result A :=
  match l with
  | [] => Ok a
  | x :: l' => a' <- f a x ;; foldM f l' a'
  end.

(** ** Numbers *)

(** The parameters of binary64. *)
Definition prec : Z := 53.
Definition emax : Z := 1024.

Abbreviation float := spec_float.

(** [0.0] *)
Definition zero : float := S754_zero false.

(** A Python number: an [int] or a [float]. *)
Inductive number : Type :=
| Int (z : Z)
| Float (f : float).

(** An integer as an unrounded floating-point number of exponent 0. *)
Definition unrounded (z : Z) : float :=
  match z with
  | Z0 => S754_zero false
  | Zpos p => S754_finite false p 0
  | Zneg p => S754_finite true p 0
  end.

(** [float(z)]: the binary64 number nearest to [z], ties to even. *)
Definition float_of_int (z : Z) : result float :=
  match binary_normalize prec emax z 0 false with
  | S754_infinity _ => Raise (OverflowError IntTooLargeForFloat)
  | f => Ok f
  end.

(** [a / b] on [int]s, the true division: the binary64 number nearest to
    the quotient, ties to even. *)
Definition true_divide (a b : Z) : result float :=
  if b =? 0 then Raise ZeroDivisionError
  else
    match SFdiv prec emax (unrounded a) (unrounded b) with
    | S754_infinity _ => Raise (OverflowError DivisionResultTooLarge)
    | q => Ok q
    end.

(** [a + b] *)
Definition py_add (a b : number) : result number :=
  match a, b with
  | Int x, Int y => Ok (Int (x + y))
  | Int x, Float g => f <- float_of_int x ;; Ok (Float (SFadd prec emax f g))
  | Float f, Int y => g <- float_of_int y ;; Ok (Float (SFadd prec emax f g))
  | Float f, Float g => Ok (Float (SFadd prec emax f g))
  end.

(** The rational numbers with the two infinities. *)
Inductive extended : Type :=
| MinusInfinity
| Rational (q : Q)
| PlusInfinity.

(** The value of a number; a NaN has none.  Numbers are compared by their
    values, an [int] with a [float] too. *)
Definition float_value (f : float) : option extended :=
  match f with
  | S754_nan => None
  | S754_infinity s => Some (if s then MinusInfinity else PlusInfinity)
  | S754_zero _ => Some (Rational 0)
  | S754_finite s m e =>
      Some (Rational (inject_Z (cond_Zopp s (Zpos m)) * 2 ^ e))
  end.

Definition value (x : number) : option extended :=
  match x with
  | Int z => Some (Rational (inject_Z z))
  | Float f => float_value f
  end.

Definition extended_compare (x y : extended) : comparison :=
  match x, y with
  | MinusInfinity, MinusInfinity => Eq
  | MinusInfinity, _ => Lt
  | _, MinusInfinity => Gt
  | PlusInfinity, PlusInfinity => Eq
  | PlusInfinity, _ => Gt
  | _, PlusInfinity => Lt
  | Rational p, Rational q => (p ?= q)%Q
  end.

(** The comparison of two numbers; [None] when one of them is a NaN. *)
Definition num_compare (a b : number) : option comparison :=
  match value a, value b with
  | Some x, Some y => Some (extended_compare x y)
  | _, _ => None
  end.

(** [a == b], [a < b] and [a <= b] *)
Definition num_eqb (a b : number) : bool :=
  match num_compare a b with Some Eq => true | _ => false end.

Definition num_ltb (a b : number) : bool :=
  match num_compare a b with Some Lt => true | _ => false end.

Definition num_leb (a b : number) : bool :=
  match num_compare a b with Some (Lt | Eq) => true | _ => false end.

(** ** The element tree *)

(** [e.findall(t)] for a plain tag [t]: the children of [e] with that tag. *)
Definition findall (t : string) (e : element) : list element :=
  filter (fun c => tag c = t) (children e).

(** The element and all its descendants, in document order. *)
Fixpoint iter_all (e : element) : list element :=
  e :: flat_map iter_all (children e).

(** [e.iter(t)] *)
Definition iter (t : string) (e : element) : list element :=
  filter (fun c => tag c = t) (iter_all e).

(** [tree.findall('//' + t)]: the elements with tag [t] below the root. *)
Definition findall_below (t : string) (root : element) : list element :=
  filter (fun c => tag c = t) (flat_map iter_all (children root)).

(** [e.find('architecture[@name="' + arch + '"]')] *)
Definition find_architecture (arch : string) (e : element) : option element :=
  head (filter (fun c => attr_lookup "name" (attrib c) = Some arch)
               (findall "architecture" e)).

(** ** [normalize_reg_name] *)

Definition is_octal (c : ascii) : bool :=
  let n := Str.code c in ((48 <=? n) && (n <=? 55))%N.

(** Whether [s] starts with [pre], a digit of [0-7] and [suf]; the digit. *)
Definition match_wrapped (pre suf s : string) : option ascii :=
  if Str.startswith pre s then
    match Str.drop (String.length pre) s with
    | String d r => if is_octal d && Str.startswith suf r then Some d else None
    | EmptyString => None
    end
  else None.

(** [re.sub(pre + '([0-7])' + suf, repl + '\1', s)] for literal [pre],
    [suf] and [repl]. *)
Fixpoint sub_wrapped (pre suf repl : string) (skip : nat) (s : string) : string :=
  match s with
  | EmptyString => EmptyString
  | String c s' =>
      match skip with
      | S k => sub_wrapped pre suf repl k s'
      | O =>
          match match_wrapped pre suf s with
          | Some d =>
              repl +:+ String d
                (sub_wrapped pre suf repl
                   (Nat.pred (String.length pre + 1 + String.length suf)) s')
          | None => String c (sub_wrapped pre suf repl O s')
          end
      end
  end.

Definition normalize_reg_name (reg_name : string) : string :=
  let reg_name := Str.strip reg_name in
  let reg_name := sub_wrapped "{K" "}" "K" O reg_name in
  let reg_name := sub_wrapped "ST(" ")" "ST" O reg_name in
  reg_name.

(** ** [port_occupancy_from_tag_attributes] *)

(** The dictionary of a port-occupancy vector: its items in insertion
    order. *)
Abbreviation occupancy := (list (string * number)).

(** [d.get(k)] *)
Fixpoint dict_get (k : string) (d : occupancy) : option number :=
  match d with
  | [] => None
  | (k', v) :: d' => if String.eqb k' k then Some v else dict_get k d'
  end.

(** [d[k] = v]: the value of an item that is there is replaced, a new item
    goes to the end. *)
Fixpoint dict_set (k : string) (v : number) (d : occupancy) : occupancy :=
  match d with
  | [] => [(k, v)]
  | (k', v') :: d' =>
      if String.eqb k' k then (k', v) :: d' else (k', v') :: dict_set k v d'
  end.

(** [a == b] on dictionaries: as many items, and every key of [a] is a
    key of [b] with an equal value. *)
Definition dict_eqb (a b : occupancy) : bool :=
  (length a =? length b)%nat
  && forallb (fun '(k, v) => match dict_get k b with
                             | Some w => num_eqb v w
                             | None => false
                             end) a.

(** [re.match('^port([0-9]+)', k)]: the group, when the key matches. *)
Definition port_group (k : string) : option string :=
  if Str.startswith "port" k then
    match fst (Str.span_digits (Str.drop 4 k)) with
    | EmptyString => None
    | d => Some d
    end
  else None.

Definition port7_archs : list string := ["HSW"; "BDW"; "SKL"; "SKX"].

(** The ports a counter with group [ports] is spread over. *)
Definition potential_ports (arch ports : string) : list string :=
  let ports :=
    if bool_decide (arch ∈ port7_archs) && bool_decide (ports = "237")
    then Str.remove_all "7" ports else ports in
  Str.chars ports.

(** [occupancy[pp] += x] on a [defaultdict(int)] *)
Definition add_occupancy (x : float) (occ : occupancy) (pp : string)
    : result occupancy :=
  v <- py_add (default (Int 0) (dict_get pp occ)) (Float x) ;;
  Ok (dict_set pp v occ).

(** The body of the loop over [attrib.items()]. *)
Definition count_attribute (arch : string) (occ : occupancy)
    (kv : string * string) : result occupancy :=
  let '(k, v) := kv in
  match port_group k with
  | None => Ok occ
  | Some ports =>
      let potential_ports := potential_ports arch ports in
      n <- py_int v ;;
      per_port_occupancy <-
        true_divide n (Z.of_nat (length potential_ports)) ;;
      foldM (add_occupancy per_port_occupancy) potential_ports occ
  end.

Fixpoint count_attributes (arch : string) (items : attributes)
    (occ : occupancy) : result occupancy :=
  match items with
  | [] => Ok occ
  | kv :: items' =>
      occ' <- count_attribute arch occ kv ;;
      count_attributes arch items' occ'
  end.

Definition port_occupancy_from_tag_attributes (attrib : attributes)
    (arch : string) : result occupancy :=
  occ <- count_attributes arch attrib [] ;;
  if attr_mem "div_cycles" attrib then
    v <- attr_getitem "div_cycles" attrib ;;
    n <- py_int v ;;
    Ok (dict_set "0DV" (Int n) occ)
  else Ok occ.

(** ** [extract_paramters] *)

Section Parameters.

(** [Register.sizes] of [osaca.param]: register name to (bit width, register
    class).  The table is not part of this file; the functions take it as
    given. *)
Variable sizes : string -> option (Z * string).

(** The key of the sort: [int(p.attrib['idx'])] *)
Definition operand_idx (p : element) : result Z :=
  v <- attr_getitem "idx" (attrib p) ;; py_int v.

(** [sorted(instruction_tag.findall("operand"), key=...)] *)
Definition parameter_tags (instruction_tag : element) : result (list element) :=
  let operands := findall "operand" instruction_tag in
  keys <- mapM operand_idx operands ;;
  Ok (map snd (sorted_by Z.ltb fst (combine keys operands))).

(** [parameters[-1] += suffix] *)
Definition append_to_last (suffix : string) (parameters : list string)
    : result (list string) :=
  match parameters with
  | [] => Raise IndexError
  | p :: ps => Ok (removelast parameters ++ [List.last ps p +:+ suffix])
  end.

(** The branch for [p_type == 'reg']. *)
Definition extract_reg (parameters : list string) (parameter_tag : element)
    : result (list string) :=
  match text parameter_tag with
  | None => Raise AttributeError
  | Some txt =>
      let possible_regs := map normalize_reg_name (Str.split "," txt) in
      let reg_groups := map sizes possible_regs in
      if bool_decide (slice_from_1 reg_groups = slice_to_last reg_groups) then
        match reg_groups with
        | [] => Raise IndexError
        | None :: _ =>
            Raise (ValueError (UnknownRegisterType (attrib parameter_tag) txt))
        | Some (size, group) :: _ =>
            if bool_decide (group = "GPR") then
              Ok (parameters ++ ["r" +:+ Str.of_int size])
            else if Str.contains "{" txt then
              append_to_last "{opmask}" parameters
            else Ok (parameters ++ [Str.lower group])
        end
      else Ok parameters
  end.

(** The body of the loop over the operands. *)
Definition extract_parameter (parameters : list string) (parameter_tag : element)
    : result (list string) :=
  suppressed <- py_int (attr_get "suppressed" "0" (attrib parameter_tag)) ;;
  if bool_decide (suppressed <> 0) then Ok parameters
  else
    p_type <- attr_getitem "type" (attrib parameter_tag) ;;
    if bool_decide (p_type = "imm") then Ok (parameters ++ ["imd"])
    else if bool_decide (p_type = "mem") then Ok (parameters ++ ["mem"])
    else if bool_decide (p_type = "reg") then extract_reg parameters parameter_tag
    else if bool_decide (p_type = "relbr") then Ok (parameters ++ ["LBL"])
    else if bool_decide (p_type = "agen") then Ok (parameters ++ ["mem"])
    else Raise (ValueError (UnknownParamterType (attrib parameter_tag))).

Fixpoint extract_parameters_from (parameter_tags : list element)
    (parameters : list string) : result (list string) :=
  match parameter_tags with
  | [] => Ok parameters
  | parameter_tag :: rest =>
      parameters' <- extract_parameter parameters parameter_tag ;;
      extract_parameters_from rest parameters'
  end.

Definition extract_paramters (instruction_tag : element) : result (list string) :=
  parameter_tags <- parameter_tags instruction_tag ;;
  extract_parameters_from parameter_tags [].

End Parameters.

(** ** [distutils.version.StrictVersion] *)

Record strict_version : Type := StrictVersion {
  version : Z * Z * Z;
  prerelease : option (string * Z)
}.

Global Instance strict_version_eq_dec : EqDecision strict_version.
Proof. solve_decision. Defined.

(** Nonempty digits at the start of [s]: their number and what follows. *)
Definition leading_number (s : string) : option (Z * string) :=
  match Str.span_digits s with
  | (EmptyString, _) => None
  | (d, r) => Some (Str.digits_value d 0, r)
  end.

(** The optional group [(\. (\d+))?]. *)
Definition optional_patch (s : string) : Z * string :=
  match s with
  | String "." r =>
      match leading_number r with
      | Some (n, r') => (n, r')
      | None => (0, s)
      end
  | _ => (0, s)
  end.

(** The optional group [([ab](\d+))?]. *)
Definition optional_prerelease (s : string) : option (string * Z) * string :=
  match s with
  | String c r =>
      if Ascii.eqb c "a" || Ascii.eqb c "b" then
        match leading_number r with
        | Some (n, r') => (Some (String c EmptyString, n), r')
        | None => (None, s)
        end
      else (None, s)
  | EmptyString => (None, s)
  end.

(** [$] matches at the end, and before a final newline. *)
Definition at_end (s : string) : bool :=
  match s with
  | EmptyString => true
  | String c EmptyString => Ascii.eqb c "010"
  | _ => false
  end.

(** [StrictVersion(vstring)]: the match of
    [^(\d+) \. (\d+) (\. (\d+))? ([ab](\d+))?$]. *)
Definition parse_version (vstring : string) : result strict_version :=
  let invalid := Raise (ValueError (InvalidVersion vstring)) in
  match leading_number vstring with
  | Some (major, String "." r1) =>
      match leading_number r1 with
      | Some (minor, r2) =>
          let '(patch, r3) := optional_patch r2 in
          let '(pre, r4) := optional_prerelease r3 in
          if at_end r4 then Ok (StrictVersion (major, minor, patch) pre)
          else invalid
      | None => invalid
      end
  | _ => invalid
  end.

Definition triple_ltb (a b : Z * Z * Z) : bool :=
  let '(a1, a2, a3) := a in
  let '(b1, b2, b3) := b in
  (a1 <? b1) || ((a1 =? b1) && ((a2 <? b2) || ((a2 =? b2) && (a3 <? b3)))).

Definition prerelease_ltb (p q : string * Z) : bool :=
  String.ltb (fst p) (fst q) || (String.eqb (fst p) (fst q) && (snd p <? snd q)).

(** [a < b] on versions, that is [a._cmp(b) < 0]. *)
Definition version_ltb (a b : strict_version) : bool :=
  if bool_decide (version a <> version b) then triple_ltb (version a) (version b)
  else
    match prerelease a, prerelease b with
    | None, None => false
    | Some _, None => true
    | None, Some _ => false
    | Some p, Some q =>
        if bool_decide (p = q) then false else prerelease_ltb p q
    end.

(** ** [build_variants] *)

Definition all_or_false (iterator : list bool) : bool :=
  match iterator with
  | [] => false
  | _ => forallb id iterator
  end.

Definition suffixes : list (string * string) :=
  [("Q", "r64"); ("L", "r32"); ("W", "r16"); ("B", "r8")].

(** The values the generator yields, in order. *)
Definition build_variants (mnemonic : string) (parameters : list string)
    : list (string * list string) :=
  let mnemonic := Str.upper mnemonic in
  [(mnemonic, parameters)]
  ++ (if existsb (Str.contains "{opmask}") parameters
      then [(mnemonic, map (Str.remove_all "{opmask}") parameters)]
      else [])
  ++ flat_map
       (fun '(s, reg) =>
          if negb (Str.endswith s mnemonic)
             && all_or_false
                  (map (fun p => String.eqb p reg)
                       (filter (fun p => p ∉ ["mem"; "imd"]) parameters))
          then [(mnemonic +:+ s, parameters)]
          else [])
       suffixes.

(** ** [extract_model] *)

(** A line on [sys.stderr]. *)
Inductive diagnostic : Type :=
| PrintedError (e : value_error)
| ContradictingLatencies (mnemonic : string)
| ContradictingPortOccupancies (mnemonic : string).

(** A computation that prints diagnostics and returns or raises; what was
    printed before an exception stays printed. *)
Definition io (A : Type) : Type := list diagnostic * result A.

Definition io_ret {A} (a : A) : io A := ([], Ok a).

Definition io_bind {A B} (m : io A) (f : A -> io B) : io B :=
  match m with
  | (out, Ok a) => let '(out', r) := f a in (out ++ out', r)
  | (out, Raise e) => (out, Raise e)
  end.

Definition print (d : diagnostic) : io unit := ([d], Ok tt).

Definition lift {A} (r : result A) : io A := ([], r).

Notation "x <~ m ;; k" := (io_bind m (fun x => k))
  (at level 100, m at next level, right associativity).

(** One tuple of [model_data]. *)
Record entry : Type := Entry {
  entry_name : string;
  entry_throughput : number;
  entry_latency : option Z;
  entry_port_occupancy : occupancy
}.

(** [max(l)]: the first of the greatest elements; an element replaces the
    maximum so far when it is greater. *)
Definition max_from (x : number) (l : list number) : number :=
  fold_left (fun m y => if num_ltb m y then y else m) l x.

Definition py_max (l : list number) : result number :=
  match l with
  | [] => Raise (ValueError MaxOfEmpty)
  | x :: l' => Ok (max_from x l')
  end.

(** [list(d.values())] and [list(d)] *)
Definition values (d : occupancy) : list number := map snd d.
Definition keys (d : occupancy) : list string := map fst d.

(** The list comprehension over the [latency] elements of a measurement. *)
Definition latency_samples (measurement_tag : element) : result (list Z) :=
  mapM (fun l_tag => v <- attr_getitem "cycles" (attrib l_tag) ;; py_int v)
       (filter (fun l_tag => attr_mem "latency" (attrib l_tag) = true)
               (iter "latency" measurement_tag)).

(** The variables the loop over the measurements updates. *)
Record collected : Type := Collected {
  port_occupancy : list occupancy;
  ignore : bool;
  latency : option Z
}.

(** The body of the loop over [arch_tag.iter('measurement')]. *)
Definition collect_measurement (arch mnemonic : string) (c : collected)
    (measurement_tag : element) : io collected :=
  po <~ lift (port_occupancy_from_tag_attributes (attrib measurement_tag) arch) ;;
  let port_occupancy := port_occupancy c ++ [po] in
  latencies <~ lift (latency_samples measurement_tag) ;;
  if bool_decide (slice_from_1 latencies <> slice_to_last latencies) then
    _ <~ print (ContradictingLatencies mnemonic) ;;
    io_ret (Collected port_occupancy true (latency c))
  else
    match latencies with
    | l0 :: _ => io_ret (Collected port_occupancy (ignore c) (Some l0))
    | [] => io_ret (Collected port_occupancy (ignore c) (latency c))
    end.

Fixpoint collect_measurements (arch mnemonic : string)
    (measurement_tags : list element) (c : collected) : io collected :=
  match measurement_tags with
  | [] => io_ret c
  | measurement_tag :: rest =>
      c' <~ collect_measurement arch mnemonic c measurement_tag ;;
      collect_measurements arch mnemonic rest c'
  end.

(** The key of the sort of the [IACA] elements. *)
Definition iaca_version (i : element) : result strict_version :=
  v <- attr_getitem "version" (attrib i) ;; parse_version v.

(** [sorted(arch_tag.iter('IACA'), key=...)] *)
Definition iaca_tags (arch_tag : element) : result (list element) :=
  let tags := iter "IACA" arch_tag in
  keys <- mapM iaca_version tags ;;
  Ok (map snd (sorted_by version_ltb fst (combine keys tags))).

(** The variables that live across the iterations of the loop over the
    instructions: the table, and [parameters], which is unbound until the
    first assignment. *)
Record loop_state : Type := LoopState {
  model_data : list entry;
  parameters : option (list string)
}.

Section Model.

Variable sizes : string -> option (Z * string).

(** The [try] statement around [extract_paramters]. *)
Definition try_extract_paramters (st : loop_state) (instruction_tag : element)
    : io (option (list string)) :=
  match extract_paramters sizes instruction_tag with
  | Ok ps => io_ret (Some ps)
  | Raise (ValueError e) =>
      _ <~ print (PrintedError e) ;; io_ret (parameters st)
  | Raise e => lift (Raise e)
  end.

(** The rows one instruction adds for its variants. *)
Definition variant_entries (mnemonic : string) (parameters : list string)
    (throughput : number) (latency : option Z) (po : occupancy) : list entry :=
  map (fun '(m, p) =>
         Entry (Str.lower m +:+ "-" +:+ Str.join "_" p) throughput latency po)
      (build_variants mnemonic parameters).

(** The body of the loop over the instructions. *)
Definition extract_instruction (arch : string) (st : loop_state)
    (instruction_tag : element) : io loop_state :=
  mnemonic <~ lift (attr_getitem "asm" (attrib instruction_tag)) ;;
  parameters <~ try_extract_paramters st instruction_tag ;;
  let continue := io_ret (LoopState (model_data st) parameters) in
  match find_architecture arch instruction_tag with
  | None => continue
  | Some arch_tag =>
      c <~ collect_measurements arch mnemonic (iter "measurement" arch_tag)
             (Collected [] false None) ;;
      iacas <~ lift (iaca_tags arch_tag) ;;
      iaca_occupancy <~ lift
        (mapM (fun iaca_tag =>
                 port_occupancy_from_tag_attributes (attrib iaca_tag) arch)
              iacas) ;;
      let port_occupancy := port_occupancy c ++ iaca_occupancy in
      if ignore c then continue
      else
        match port_occupancy with
        | [] => continue
        | po0 :: pos =>
            _ <~ (if negb (list_eqb dict_eqb (slice_from_1 port_occupancy)
                                             (slice_to_last port_occupancy))
                  then print (ContradictingPortOccupancies mnemonic)
                  else io_ret tt) ;;
            let po := List.last pos po0 in
            throughput <~ lift (py_max (values po ++ [Float zero])) ;;
            match parameters with
            | None => lift (Raise (UnboundLocalError "parameters"))
            | Some ps =>
                io_ret (LoopState
                          (model_data st
                           ++ variant_entries mnemonic ps throughput (latency c) po)
                          parameters)
            end
        end
  end.

Fixpoint extract_instructions (arch : string) (instruction_tags : list element)
    (st : loop_state) : io loop_state :=
  match instruction_tags with
  | [] => io_ret st
  | instruction_tag :: rest =>
      st' <~ extract_instruction arch st instruction_tag ;;
      extract_instructions arch rest st'
  end.

Definition extract_model (tree : element) (arch : string) : io (list entry) :=
  st <~ extract_instructions arch (findall_below "instruction" tree)
          (LoopState [] None) ;;
  io_ret (model_data st).

End Model.

(** ** [dump_csv] *)

Definition int_or_zero (s : string) : Z :=
  match py_int s with
  | Ok z => z
  | Raise _ => 0
  end.

(** [max(l)] on integers. *)
Definition py_max_int (l : list Z) : result Z :=
  match l with
  | [] => Raise (ValueError MaxOfEmpty)
  | x :: l' => Ok (fold_left (fun m y => if m <? y then y else m) l' x)
  end.

(** [l.index(x)] *)
Fixpoint index_from (x : string) (l : list string) (i : nat) : result nat :=
  match l with
  | [] => Raise (ValueError (NotInList x))
  | y :: l' => if String.eqb y x then Ok i else index_from x l' (S i)
  end.

Definition py_index (x : string) (l : list string) : result nat :=
  index_from x l O.

(** [l.insert(i, x)] for [0 <= i] *)
Definition py_insert (i : nat) (x : string) (l : list string) : list string :=
  take i l ++ x :: drop i l.

(** What is printed for one entry: the name, throughput and latency, and the
    numbers between the parentheses.  The rendering of the numbers as text
    is left out. *)
Record csv_line : Type := CsvLine {
  line_instr : string;
  line_TP : number;
  line_LT : option Z;
  line_ports : list number
}.

(** [<] on the items of a dictionary, tuples of a key and a number: the
    keys decide, and the numbers when the keys are equal. *)
Definition item_ltb (a b : string * number) : bool :=
  String.ltb (fst a) (fst b)
  || (String.eqb (fst a) (fst b) && num_ltb (snd a) (snd b)).

(** The ports that occur in the table, as [sorted(ports)]. *)
Definition seen_ports (model_data : list entry) : list string :=
  sorted_by String.ltb id
    (elements (⋃ (map (fun e => list_to_set (keys (entry_port_occupancy e)))
                      model_data)
               : gset string)).

(** The loop over [ports] that fills the missing ports of one entry. *)
Definition fill_ports (ports : list string) (po : occupancy) : occupancy :=
  fold_left (fun po p => match dict_get p po with
                         | Some _ => po
                         | None => dict_set p (Float zero) po
                         end)
            ports po.

Definition csv_line_of (ports : list string) (e : entry) : csv_line :=
  let po := fill_ports ports (entry_port_occupancy e) in
  let po_items := sorted_by item_ltb id po in
  CsvLine (entry_name e) (entry_throughput e) (entry_latency e)
          (map snd po_items).

Section Serializer.

(** [Scheduler.arch_dict] and [Scheduler.arch_pipeline_ports] of
    [osaca.eu_sched]: the number of ports of an architecture and its extra
    pipeline ports.  The tables are not part of this file. *)
Variable arch_dict : gmap string Z.
Variable arch_pipeline_ports : gmap string (list string).

(** The bound in the condition of the [while] loop. *)
Definition port_count (arch : string) : result Z :=
  match arch_dict !! arch with
  | None => Raise (KeyError arch)
  | Some n =>
      Ok (n + Z.of_nat (length (default [] (arch_pipeline_ports !! arch))))
  end.

(** The body of the [while] loop. *)
Definition extend_ports_step (ports : list string) : result (list string) :=
  m <- py_max_int (map int_or_zero ports) ;;
  max_index <- py_index (Str.of_int m) ports ;;
  m' <- py_max_int (map int_or_zero ports) ;;
  Ok (py_insert (max_index + 1) (Str.of_int (m' + 1)) ports).

(** The [while] loop; [None] when [fuel] iterations do not finish it. *)
Fixpoint extend_ports (fuel : nat) (arch : string) (ports : list string)
    : option (result (list string)) :=
  match port_count arch with
  | Raise e => Some (Raise e)
  | Ok n =>
      if Z.of_nat (length ports) <? n then
        match fuel with
        | O => None
        | S fuel' =>
            match extend_ports_step ports with
            | Raise e => Some (Raise e)
            | Ok ports' => extend_ports fuel' arch ports'
            end
        end
      else Some (Ok ports)
  end.

(** [dump_csv]: the lines after the header [instr,TP,LT,ports]. *)
Definition dump_csv (fuel : nat) (model_data : list entry) (arch : string)
    : option (result (list csv_line)) :=
  match extend_ports fuel arch (seen_ports model_data) with
  | None => None
  | Some (Raise e) => Some (Raise e)
  | Some (Ok ports) => Some (Ok (map (csv_line_of ports) model_data))
  end.

End Serializer.

(** ** Sample tables and documents

    Small tables of the shape of [Register.sizes], [Scheduler.arch_dict] and
    [Scheduler.arch_pipeline_ports], and small documents, on which the
    functions are run below. *)

Definition sample_sizes (r : string) : option (Z * string) :=
  if bool_decide (r ∈ ["AX"; "BX"; "CX"]) then Some (16, "GPR")
  else if bool_decide (r ∈ ["EAX"; "EBX"; "ECX"]) then Some (32, "GPR")
  else if bool_decide (r ∈ ["RAX"; "RBX"; "RCX"]) then Some (64, "GPR")
  else if bool_decide (r ∈ ["XMM0"; "XMM1"; "XMM2"]) then Some (128, "XMM")
  else if bool_decide (r ∈ ["ZMM0"; "ZMM1"; "ZMM2"]) then Some (512, "ZMM")
  else if bool_decide (r ∈ ["K0"; "K1"; "K2"]) then Some (64, "MASK")
  else None.

Definition sample_arch_dict : gmap string Z := {[ "SKL" := 8 ]}.
Definition sample_arch_pipeline_ports : gmap string (list string) :=
  {[ "SKL" := ["0DV"] ]}.

Definition operand (idx type txt : string) : element :=
  Element "operand" [("idx", idx); ("type", type)] (Some txt) [].

Definition instruction (asm : string) (children : list element) : element :=
  Element "instruction" [("asm", asm)] None children.

Definition architecture (name : string) (children : list element) : element :=
  Element "architecture" [("name", name)] None children.

Definition measurement (attrib : attributes) (children : list element) : element :=
  Element "measurement" attrib None children.

Definition IACA (version : string) (attrib : attributes) : element :=
  Element "IACA" (("version", version) :: attrib) None [].

Definition document (instructions : list element) : element :=
  Element "root" [] None instructions.

(** ** Vocabulary of the statements

    The predicates in which the properties below are stated. *)

(** Some token carries the opmask marker. *)
Definition masked (parameters : list string) : Prop :=
  exists p, p ∈ parameters /\ Str.contains "{opmask}" p = true.

(** A token that is neither the memory nor the immediate token. *)
Definition register_token (p : string) : Prop := p ∉ ["mem"; "imd"].

(** The condition under which [build_variants] yields the form with
    suffix [s]. *)
Definition suffix_applies (M : string) (parameters : list string)
    (s reg : string) : Prop :=
  Str.endswith s M = false
  /\ (exists p, p ∈ parameters /\ register_token p)
  /\ (forall p, p ∈ parameters -> register_token p -> p = reg).

(** An operand with a nonzero [suppressed] attribute. *)
Definition suppressed_operand (p : element) : Prop :=
  exists z, py_int (attr_get "suppressed" "0" (attrib p)) = Ok z /\ z <> 0.

(** A register operand, not suppressed, that carries a mask annotation and
    whose alternatives all have the register class [group] (at width
    [size]). *)
Definition masked_register_operand (sizes : string -> option (Z * string))
    (p : element) (size : Z) (group : string) : Prop :=
  py_int (attr_get "suppressed" "0" (attrib p)) = Ok 0
  /\ attr_lookup "type" (attrib p) = Some "reg"
  /\ exists txt, text p = Some txt
       /\ Str.contains "{" txt = true
       /\ Forall (fun r => sizes (normalize_reg_name r) = Some (size, group))
                 (Str.split "," txt).

(** [x] is not a NaN. *)
Definition not_nan (x : number) : Prop := is_Some (value x).

(** A floating-point number other than the infinities and NaN. *)
Definition finite_float (f : float) : bool :=
  match f with
  | S754_zero _ | S754_finite _ _ _ => true
  | _ => false
  end.

(** [a <= b] and [a == b] on numbers, as propositions. *)
Definition num_le (a b : number) : Prop := num_leb a b = true.
Definition num_eq (a b : number) : Prop := num_eqb a b = true.

(** A dictionary as Python keeps it: no key occurs twice. *)
Definition unique_keys (d : occupancy) : Prop := NoDup (keys d).



(** A vector as the extractor builds it: no port occurs twice, and no
    occupancy is a NaN. *)
Definition vector (d : occupancy) : Prop :=
  unique_keys d /\ Forall not_nan (values d).

(** [q] is the quotient [n / len] of binary64: the share that a counter of
    value [n] gives to each of its [len] candidate ports. *)
Definition equal_share (n : Z) (len : nat) (q : float) : Prop :=
  true_divide n (Z.of_nat len) = Ok q.

(** What a counter contributes to port [p]: its equal share, once for
    every occurrence of [p] among its candidate ports. *)
Definition counter_shares (arch : string) (kv : string * string) (p : string)
    : list float :=
  match port_group (fst kv), Str.to_int (snd kv) with
  | Some ports, Some n =>
      let candidates := potential_ports arch ports in
      match true_divide n (Z.of_nat (length candidates)) with
      | Ok q => map (fun _ => q) (filter (fun pp => pp = p) candidates)
      | Raise _ => []
      end
  | _, _ => []
  end.

(** What all the counters of a dictionary contribute to port [p], in the
    order of the dictionary. *)
Definition shares (arch : string) (items : attributes) (p : string) : list float :=
  flat_map (fun kv => counter_shares arch kv p) items.

(** The sum of shares as binary64 computes it: from 0, one addition per
    share, from the first to the last. *)
Definition float_sum (l : list float) : float :=
  fold_left (SFadd prec emax) l zero.

(** What port [p] holds when the shares [l] were added to it: nothing
    without a share. *)
Definition total_share (l : list float) : option number :=
  match l with
  | [] => None
  | _ => Some (Float (float_sum l))
  end.

(** The share of every port counter of the dictionary is in the range of
    binary64. *)
Definition shares_in_range (arch : string) (items : attributes) : Prop :=
  forall k v ports n,
    (k, v) ∈ items -> port_group k = Some ports -> Str.to_int v = Some n ->
    exists q, equal_share n (length (potential_ports arch ports)) q.

(** The candidate ports of the counters of an attribute dictionary. *)
Definition candidate_port (arch : string) (items : attributes) (p : string) : Prop :=
  exists k v ports, (k, v) ∈ items /\ port_group k = Some ports
                    /\ p ∈ potential_ports arch ports.

(** Every port counter of the dictionary, and [div_cycles] when present,
    holds an integer literal. *)
Definition integer_counters (items : attributes) : Prop :=
  (forall k v, (k, v) ∈ items -> is_Some (port_group k) -> is_Some (Str.to_int v))
  /\ (forall v, attr_lookup "div_cycles" items = Some v -> is_Some (Str.to_int v)).

(** What one iteration of the loop over the instructions does when it ends
    without an exception. *)
Inductive instruction_outcome (sizes : string -> option (Z * string))
    (arch : string) (st : loop_state) (instruction_tag : element)
    (out : list diagnostic) (st' : loop_state) : Prop :=
| outcome_no_architecture mnemonic params :
    attr_lookup "asm" (attrib instruction_tag) = Some mnemonic ->
    try_extract_paramters sizes st instruction_tag = (out, Ok params) ->
    find_architecture arch instruction_tag = None ->
    st' = LoopState (model_data st) params ->
    instruction_outcome sizes arch st instruction_tag out st'
| outcome_skipped mnemonic out_p params arch_tag out_c c iacas ivs :
    attr_lookup "asm" (attrib instruction_tag) = Some mnemonic ->
    try_extract_paramters sizes st instruction_tag = (out_p, Ok params) ->
    find_architecture arch instruction_tag = Some arch_tag ->
    collect_measurements arch mnemonic (iter "measurement" arch_tag)
      (Collected [] false None) = (out_c, Ok c) ->
    iaca_tags arch_tag = Ok iacas ->
    mapM (fun iaca_tag => port_occupancy_from_tag_attributes (attrib iaca_tag) arch)
         iacas = Ok ivs ->
    ignore c = true \/ port_occupancy c ++ ivs = [] ->
    out = out_p ++ out_c ->
    st' = LoopState (model_data st) params ->
    instruction_outcome sizes arch st instruction_tag out st'
| outcome_added mnemonic out_p ps arch_tag out_c c iacas ivs po0 pos throughput :
    attr_lookup "asm" (attrib instruction_tag) = Some mnemonic ->
    try_extract_paramters sizes st instruction_tag = (out_p, Ok (Some ps)) ->
    find_architecture arch instruction_tag = Some arch_tag ->
    collect_measurements arch mnemonic (iter "measurement" arch_tag)
      (Collected [] false None) = (out_c, Ok c) ->
    iaca_tags arch_tag = Ok iacas ->
    mapM (fun iaca_tag => port_occupancy_from_tag_attributes (attrib iaca_tag) arch)
         iacas = Ok ivs ->
    ignore c = false ->
    port_occupancy c ++ ivs = po0 :: pos ->
    py_max (values (List.last pos po0) ++ [Float zero]) = Ok throughput ->
    out = out_p ++ out_c
          ++ (if negb (list_eqb dict_eqb (slice_from_1 (po0 :: pos))
                                         (slice_to_last (po0 :: pos)))
              then [ContradictingPortOccupancies mnemonic] else []) ->
    st' = LoopState
            (model_data st
             ++ variant_entries mnemonic ps throughput (latency c) (List.last pos po0))
            (Some ps) ->
    instruction_outcome sizes arch st instruction_tag out st'.

(** [t] is the greatest occupancy of [po], or 0.0 when [po] is empty or
    holds only negative numbers. *)
Definition floor_max (t : number) (po : occupancy) : Prop :=
  num_le (Float zero) t
  /\ (forall p v, dict_get p po = Some v -> num_le v t)
  /\ (t = Float zero \/ exists p, dict_get p po = Some t).

(** The vector of an entry is a dictionary without a NaN, and the
    throughput of the entry is what [max] gives for its values and 0.0. *)
Definition derived_throughput (e : entry) : Prop :=
  unique_keys (entry_port_occupancy e)
  /\ Forall not_nan (values (entry_port_occupancy e))
  /\ py_max (values (entry_port_occupancy e) ++ [Float zero])
     = Ok (entry_throughput e).


(** The occupancy vector of a measurement or analyzer record. *)
Definition vector_of (arch : string) (record : element) : result occupancy :=
  port_occupancy_from_tag_attributes (attrib record) arch.


(** A latency sample of a measurement record: a [latency] element below
    the record that carries a [latency] attribute. *)
Definition latency_sample (measurement_tag l_tag : element) : Prop :=
  l_tag ∈ iter "latency" measurement_tag
  /\ is_Some (attr_lookup "latency" (attrib l_tag)).

(** The cycle count of a latency element: the integer that its [cycles]
    attribute holds. *)
Definition cycle_count (l_tag : element) (c : Z) : Prop :=
  exists v, attr_lookup "cycles" (attrib l_tag) = Some v /\ Str.to_int v = Some c.

(** Two latency samples of the measurement record have different cycle
    counts. *)
Definition contradicting_latencies (measurement_tag : element) : Prop :=
  exists l1 l2 c1 c2,
    latency_sample measurement_tag l1 /\ latency_sample measurement_tag l2
    /\ cycle_count l1 c1 /\ cycle_count l2 c2 /\ c1 <> c2.

(** Every latency sample of the measurement record has a cycle count. *)
Definition readable_latencies (measurement_tag : element) : Prop :=
  forall l_tag, latency_sample measurement_tag l_tag -> exists c, cycle_count l_tag c.


(** Every character of [s] satisfies [P]. *)
Fixpoint all_chars (P : ascii -> bool) (s : string) : bool :=
  match s with
  | EmptyString => true
  | String c s' => P c && all_chars P s'
  end.

(** [a] may stand before [b] in a list sorted by [key]: the key of [b] is
    not less than that of [a]. *)
Definition ascending {A K} (lt : K -> K -> bool) (key : A -> K) (a b : A) : Prop :=
  lt (key b) (key a) = false.

(** [a] stands before [b] in the lexicographic order of the code points. *)
Definition string_lt (a b : string) : Prop := String.ltb a b = true.

(** ** More sample documents *)

(** An instruction whose first operand that is not suppressed, in the
    order of [idx], is a mask register. *)
Definition mask_first_instruction : element :=
  instruction "KMOVW"
    [operand "2" "reg" "EAX";
     Element "operand" [("idx", "0"); ("type", "reg"); ("suppressed", "1")]
             (Some "RCX") [];
     operand "1" "reg" "{K1},{K2}"].

(** An instruction whose second operand lists registers of two classes. *)
Definition mixed_class_instruction : element :=
  instruction "MOVD" [operand "1" "reg" "XMM0"; operand "2" "reg" "EAX,XMM1"].

(** A document whose first instruction names a register that the table
    does not know. *)
Definition unknown_register_document : element :=
  document
    [instruction "FOO"
       [operand "1" "reg" "NOREG";
        architecture "SKL" [measurement [("port0", "1")] []]];
     instruction "ADD"
       [operand "1" "reg" "EAX"; operand "2" "reg" "EBX";
        architecture "SKL" [measurement [("port0156", "1")] []]]].

(** A [latency] element. *)
Definition latency_tag (attrib : attributes) : element :=
  Element "latency" attrib None [].

(** A measurement with one latency sample of three cycles. *)
Definition latency_document : element :=
  document
    [instruction "ADD"
       [operand "1" "reg" "EAX"; operand "2" "reg" "EBX";
        architecture "SKL"
          [measurement [("port0156", "1")]
             [latency_tag [("cycles", "3"); ("start_op", "1"); ("target_op", "2")]]]]].

(** A measurement whose latency samples disagree, and an analyzer record
    whose vector differs from the measured one. *)
Definition contradicting_instruction : element :=
  instruction "ADD"
    [operand "1" "reg" "EAX"; operand "2" "reg" "EBX";
     architecture "SKL"
       [measurement [("port0156", "1")]
          [latency_tag [("latency", "1"); ("cycles", "1")];
           latency_tag [("latency", "1"); ("cycles", "2")]];
        IACA "2.1" [("port015", "1")]]].

(** Two analyzer records, the newer one first in the document. *)
Definition two_versions_instruction : element :=
  instruction "ADD"
    [operand "1" "reg" "EAX"; operand "2" "reg" "EBX";
     architecture "SKL"
       [IACA "2.1" [("port0156", "1")]; IACA "2.0" [("port015", "1")]]].

(** An instruction that uses no port. *)
Definition nop_document : element :=
  document
    [instruction "NOP" [architecture "SKL" [measurement [("uops", "1")] []]]].

(** An instruction that uses the divider pipeline only. *)
Definition divider_document : element :=
  document
    [instruction "FDIV"
       [architecture "SKL" [measurement [("div_cycles", "4")] []]]].

(** The table of a document, or the empty table when the run fails. *)
Definition table_of (tree : element) (arch : string) : list entry :=
  match snd (extract_model sample_sizes tree arch) with
  | Ok table => table
  | Raise _ => []
  end.

(** * Numbers *)

(** ** The order of the values *)

Lemma extended_compare_refl (x : extended) : extended_compare x x = Eq.
Proof. destruct x; simpl; try done. by apply Qeq_alt. Qed.

Lemma extended_compare_antisym (x y : extended) :
  extended_compare y x = CompOpp (extended_compare x y).
Proof. destruct x, y; simpl; try done. symmetry. apply Qcompare_antisym. Qed.

Lemma extended_compare_Eq_trans (x y z : extended) :
  extended_compare x y = Eq -> extended_compare y z = extended_compare x z.
Proof.
  destruct x as [|p|], y as [|q|], z as [|r|]; simpl; try done.
  intros H. apply Qeq_alt in H. by rewrite H.
Qed.

Lemma extended_compare_Lt_trans (x y z : extended) :
  extended_compare x y = Lt -> extended_compare y z <> Gt ->
  extended_compare x z = Lt.
Proof.
  destruct x as [|p|], y as [|q|], z as [|r|]; simpl; try done.
  intros H1 H2. apply Qlt_alt. apply Qlt_alt in H1. apply Qle_alt in H2.
  by eapply Qlt_le_trans.
Qed.

Lemma num_compare_not_nan (a b : number) :
  not_nan a -> not_nan b -> is_Some (num_compare a b).
Proof. unfold num_compare. intros [x ->] [y ->]. eauto. Qed.

Lemma num_compare_antisym (a b : number) :
  num_compare b a = CompOpp <$> num_compare a b.
Proof.
  unfold num_compare. destruct (value a), (value b); simpl; try done.
  by rewrite extended_compare_antisym.
Qed.




Lemma num_leb_refl (a : number) : not_nan a -> num_le a a.
Proof.
  unfold num_le, num_leb, num_compare. intros [x ->].
  by rewrite extended_compare_refl.
Qed.

Lemma num_ltb_leb (a b : number) : num_ltb a b = true -> num_le a b.
Proof. unfold num_le, num_ltb, num_leb. by destruct (num_compare a b) as [[]|]. Qed.

(** Two numbers that are not NaNs are comparable. *)
Lemma num_ltb_false_leb (a b : number) :
  not_nan a -> not_nan b -> num_ltb a b = false -> num_le b a.
Proof.
  unfold num_le, num_ltb, num_leb. intros Ha Hb.
  rewrite (num_compare_antisym a b).
  destruct (num_compare_not_nan a b Ha Hb) as [c ->]. by destruct c.
Qed.

Lemma num_leb_trans (a b c : number) : num_le a b -> num_le b c -> num_le a c.
Proof.
  unfold num_le, num_leb, num_compare.
  destruct (value a) as [x|], (value b) as [y|], (value c) as [z|]; try done.
  destruct (extended_compare x y) eqn:E1; [| | done]; intros _.
  - by rewrite (extended_compare_Eq_trans x y z E1).
  - destruct (extended_compare y z) eqn:E2; [| | done]; intros _.
    + by rewrite (extended_compare_Lt_trans x y z E1) by (by rewrite E2).
    + by rewrite (extended_compare_Lt_trans x y z E1) by (by rewrite E2).
Qed.

Lemma num_leb_not_nan (a b : number) : num_le a b -> not_nan a /\ not_nan b.
Proof.
  unfold num_le, num_leb, num_compare, not_nan.
  by destruct (value a), (value b).
Qed.

Lemma num_leb_antisym (a b : number) : num_le a b -> num_le b a -> num_eq a b.
Proof.
  unfold num_le, num_eq, num_leb, num_eqb. rewrite (num_compare_antisym a b).
  by destruct (num_compare a b) as [[]|].
Qed.

(** ** [max] *)

Lemma max_from_elem (x : number) (l : list number) : max_from x l ∈ x :: l.
Proof.
  unfold max_from. revert x. induction l as [|z l IH]; intros x; simpl.
  - left.
  - destruct (num_ltb x z).
    + right. apply IH.
    + specialize (IH x). apply elem_of_cons in IH as [E | IH].
      * rewrite E. left.
      * right. by right.
Qed.

Lemma max_from_ge (x : number) (l : list number) :
  not_nan x -> Forall not_nan l ->
  num_le x (max_from x l) /\ forall y, y ∈ l -> num_le y (max_from x l).
Proof.
  unfold max_from. intros Hx Hl. revert x Hx.
  induction Hl as [|z l Hz Hl IH]; intros x Hx; simpl.
  - split; [by apply num_leb_refl | intros y Hy; inversion Hy].
  - destruct (num_ltb x z) eqn:E.
    + destruct (IH z Hz) as [Hzm Hlm]. split.
      * eapply num_leb_trans; [by apply num_ltb_leb | done].
      * intros y Hy. apply elem_of_cons in Hy as [-> | Hy]; auto.
    + destruct (IH x Hx) as [Hxm Hlm]. split; [done |].
      intros y Hy. apply elem_of_cons in Hy as [-> | Hy]; auto.
      eapply num_leb_trans; [| exact Hxm]. by apply num_ltb_false_leb.
Qed.

(** ** Rounding never gives a NaN *)

Lemma shr_1_nonneg mrs : 0 <= shr_m mrs -> 0 <= shr_m (shr_1 mrs).
Proof. destruct mrs as [[|[p|p|]|[p|p|]] r s]; simpl; lia. Qed.

Lemma iter_pos_shr_1_nonneg (p : positive) mrs :
  0 <= shr_m mrs -> 0 <= shr_m (SpecFloat.iter_pos shr_1 p mrs).
Proof.
  revert mrs. induction p as [p IH | p IH |]; intros mrs H; simpl.
  - by apply IH, IH, shr_1_nonneg.
  - by apply IH, IH.
  - by apply shr_1_nonneg.
Qed.

Lemma shr_fexp_nonneg m e l :
  0 <= m -> 0 <= shr_m (fst (shr_fexp prec emax m e l)).
Proof.
  intros H. unfold shr_fexp, shr.
  assert (H0 : 0 <= shr_m (shr_record_of_loc m l)) by (by destruct l as [|[]]).
  destruct (fexp prec emax (Zdigits2 m + e) - e); simpl; try done.
  by apply iter_pos_shr_1_nonneg.
Qed.

Lemma round_nearest_even_nonneg m l : 0 <= m -> 0 <= round_nearest_even m l.
Proof. destruct l as [|[]]; simpl; try lia. destruct (Z.even m); lia. Qed.

Lemma binary_round_aux_not_nan sx mx ex lx :
  0 <= mx -> binary_round_aux prec emax sx mx ex lx <> S754_nan.
Proof.
  intros H. unfold binary_round_aux.
  pose proof (shr_fexp_nonneg mx ex lx H) as H1.
  destruct (shr_fexp prec emax mx ex lx) as [mrs' e']. simpl in H1.
  pose proof (shr_fexp_nonneg _ e' loc_Exact
                (round_nearest_even_nonneg _ (loc_of_shr_record mrs') H1)) as H2.
  destruct (shr_fexp prec emax (round_nearest_even _ _) e' loc_Exact) as [mrs'' e''].
  simpl in H2. destruct (shr_m mrs''); [done | | lia].
  by destruct (e'' <=? emax - prec).
Qed.

Lemma binary_normalize_not_nan m e szero :
  binary_normalize prec emax m e szero <> S754_nan.
Proof.
  destruct m as [|p|p]; simpl; [done | |]; unfold binary_round;
    destruct (shl_align _ _ _); by apply binary_round_aux_not_nan.
Qed.

(** A sum is a NaN only when a summand is one, or when the two summands
    are infinities. *)
Lemma SFadd_not_nan (x y : float) :
  x <> S754_nan -> finite_float y = true -> SFadd prec emax x y <> S754_nan.
Proof.
  intros Hx Hy. destruct x as [sx| sx | | sx mx ex], y as [sy | sy | | sy my ey];
    try done; simpl.
  - by destruct sx, sy.
  - apply binary_normalize_not_nan.
Qed.

Lemma float_of_int_finite (z : Z) (f : float) :
  float_of_int z = Ok f -> finite_float f = true.
Proof.
  unfold float_of_int. pose proof (binary_normalize_not_nan z 0 false) as H.
  destruct (binary_normalize prec emax z 0 false); try done; by intros [= <-].
Qed.

Lemma SFdiv_core_binary_nonneg m1 e1 m2 e2 :
  0 <= m1 -> 0 < m2 -> 0 <= fst (fst (SFdiv_core_binary prec emax m1 e1 m2 e2)).
Proof.
  intros H1 H2. unfold SFdiv_core_binary.
  set (s := _ - _ - _).
  set (m' := match s with Z0 => m1 | Zpos _ => Z.shiftl m1 s | Zneg _ => 0 end).
  assert (Hm' : 0 <= m').
  { unfold m'. destruct s; try lia. by apply Z.shiftl_nonneg. }
  pose proof (Z_div_mod m' m2 ltac:(lia)) as Hdiv.
  destruct (Z.div_eucl m' m2) as [q r]. simpl. nia.
Qed.

(** The quotient of two integers is a finite number. *)
Lemma true_divide_finite (a b : Z) (q : float) :
  true_divide a b = Ok q -> finite_float q = true.
Proof.
  unfold true_divide. destruct (Z.eqb_spec b 0) as [| Hb]; [done |].
  assert (H : SFdiv prec emax (unrounded a) (unrounded b) <> S754_nan).
  { destruct a as [|p|p], b as [|p'|p']; try done; simpl;
      match goal with
      | |- context [SFdiv_core_binary prec emax ?m1 ?e1 ?m2 ?e2] =>
          pose proof (SFdiv_core_binary_nonneg m1 e1 m2 e2 ltac:(lia) ltac:(lia)) as Hq;
          destruct (SFdiv_core_binary prec emax m1 e1 m2 e2) as [[mz ez] lz]
      end; by apply binary_round_aux_not_nan. }
  destruct (SFdiv prec emax (unrounded a) (unrounded b)); try done; by intros [= <-].
Qed.

Lemma float_value_not_nan (f : float) : f <> S754_nan <-> not_nan (Float f).
Proof.
  unfold not_nan. simpl. destruct f; simpl; split; try done; eauto.
Qed.

(** What [+] returns is not a NaN when its left operand is not one and its
    right operand is a finite [float]. *)
Lemma py_add_not_nan (a : number) (x : float) (v : number) :
  not_nan a -> finite_float x = true -> py_add a (Float x) = Ok v -> not_nan v.
Proof.
  intros Ha Hx. destruct a as [z | f]; simpl.
  - destruct (float_of_int z) as [f|] eqn:E; [| done]. simpl. intros [= <-].
    apply float_value_not_nan, SFadd_not_nan; [| done].
    apply float_of_int_finite in E. by destruct f.
  - intros [= <-]. apply float_value_not_nan, SFadd_not_nan; [| done].
    by apply float_value_not_nan.
Qed.

(** ** Runs of the arithmetic *)

(** [1/5 + 2/5] is not [3/5]: the sum is rounded. *)
Example sum_of_fifths :
  exists a b c,
    true_divide 1 5 = Ok a /\ true_divide 2 5 = Ok b /\ true_divide 3 5 = Ok c
    /\ num_compare (Float (SFadd prec emax a b)) (Float c) = Some Gt.
Proof. eexists _, _, _. repeat split; vm_compute; reflexivity. Qed.

(** [(2**53 + 1) / 1] is [2**53 / 1]: the quotient is rounded. *)
Example rounded_quotient : true_divide (2 ^ 53 + 1) 1 = true_divide (2 ^ 53) 1.
Proof. vm_compute. reflexivity. Qed.

(** [10**400 / 2] raises [OverflowError]. *)
Example quotient_out_of_range :
  true_divide (10 ^ 400) 2 = Raise (OverflowError DivisionResultTooLarge).
Proof. vm_compute. reflexivity. Qed.

(** [3 == 3.0], and [6 / 2] is [3.0]. *)
Example int_equals_float :
  exists q, true_divide 6 2 = Ok q /\ num_eqb (Int 3) (Float q) = true.
Proof. eexists. split; vm_compute; reflexivity. Qed.

(** * Dictionaries *)

Lemma dict_get_set_eq (k : string) (v : number) (d : occupancy) :
  dict_get k (dict_set k v d) = Some v.
Proof.
  induction d as [|[k' v'] d IH]; simpl.
  - by rewrite String.eqb_refl.
  - destruct (String.eqb k' k) eqn:E; simpl; by rewrite E.
Qed.

Lemma dict_get_set_ne (k k' : string) (v : number) (d : occupancy) :
  k <> k' -> dict_get k' (dict_set k v d) = dict_get k' d.
Proof.
  intros Hne. induction d as [|[k'' v''] d IH]; simpl.
  - by rewrite (proj2 (String.eqb_neq k k')).
  - destruct (String.eqb_spec k'' k) as [-> | Hk]; simpl.
    + by rewrite (proj2 (String.eqb_neq k k')).
    + by rewrite IH.
Qed.

Lemma dict_get_Some_elem (k : string) (v : number) (d : occupancy) :
  dict_get k d = Some v -> (k, v) ∈ d.
Proof.
  induction d as [|[k' v'] d IH]; simpl; [done |].
  destruct (String.eqb_spec k' k) as [-> | Hk].
  - intros [= ->]. left.
  - intros H. right. by apply IH.
Qed.

Lemma dict_get_is_Some (k : string) (d : occupancy) :
  is_Some (dict_get k d) <-> k ∈ keys d.
Proof.
  induction d as [|[k' v'] d IH]; simpl.
  - split; [by intros [? ?] | by intros ?%elem_of_nil].
  - rewrite elem_of_cons. destruct (String.eqb_spec k' k) as [-> | Hk].
    + split; [by left | eauto].
    + rewrite IH. split; [by right | by intros [-> | ?]].
Qed.

Lemma dict_get_None (k : string) (d : occupancy) :
  dict_get k d = None <-> k ∉ keys d.
Proof. rewrite <- dict_get_is_Some, eq_None_not_Some. done. Qed.

Lemma elem_dict_get (k : string) (v : number) (d : occupancy) :
  unique_keys d -> (k, v) ∈ d -> dict_get k d = Some v.
Proof.
  unfold unique_keys, keys. induction d as [|[k' v'] d IH]; simpl; intros Hd Hin.
  - by apply elem_of_nil in Hin.
  - apply NoDup_cons in Hd as [Hk' Hd].
    apply elem_of_cons in Hin as [[= -> ->] | Hin].
    + by rewrite String.eqb_refl.
    + destruct (String.eqb_spec k' k) as [-> | Hk]; [| by apply IH].
      exfalso. apply Hk'. apply list_elem_of_fmap. by exists (k, v).
Qed.

Lemma keys_dict_set (k : string) (v : number) (d : occupancy) :
  keys (dict_set k v d)
  = match dict_get k d with Some _ => keys d | None => keys d ++ [k] end.
Proof.
  unfold keys. induction d as [|[k' v'] d IH]; simpl; [done |].
  destruct (String.eqb k' k); simpl; [done |].
  rewrite IH. by destruct (dict_get k d).
Qed.

Lemma unique_keys_dict_set (k : string) (v : number) (d : occupancy) :
  unique_keys d -> unique_keys (dict_set k v d).
Proof.
  unfold unique_keys. intros Hd. rewrite keys_dict_set.
  destruct (dict_get k d) eqn:E; [done |].
  apply NoDup_app. split; [done |]. split; [| apply NoDup_singleton].
  intros x Hx ->%list_elem_of_singleton. by apply dict_get_None in E.
Qed.

Lemma values_dict_set (P : number -> Prop) (k : string) (v : number)
    (d : occupancy) :
  Forall P (values d) -> P v -> Forall P (values (dict_set k v d)).
Proof.
  unfold values. intros Hd Hv. induction d as [|[k' v'] d IH]; simpl.
  - by constructor.
  - simpl in Hd. apply Forall_cons in Hd as [Hv' Hd].
    destruct (String.eqb k' k); simpl; constructor; auto.
Qed.

Lemma elem_of_values (d : occupancy) (v : number) :
  unique_keys d -> (v ∈ values d <-> exists p, dict_get p d = Some v).
Proof.
  intros Hd. unfold values. rewrite list_elem_of_fmap. split.
  - intros ([p w] & -> & H). exists p. by apply elem_dict_get.
  - intros (p & H). exists (p, v). split; [done |]. by apply dict_get_Some_elem.
Qed.

Lemma dict_get_values (d : occupancy) (p : string) (v : number) :
  dict_get p d = Some v -> v ∈ values d.
Proof.
  intros H. apply dict_get_Some_elem in H. unfold values.
  apply list_elem_of_fmap. by exists (p, v).
Qed.

(** ** Equality of dictionaries *)







(** ** Equality of lists *)

Lemma list_eqb_true {A} (eqb : A -> A -> bool) (l1 l2 : list A) :
  list_eqb eqb l1 l2 = true <-> Forall2 (fun x y => eqb x y = true) l1 l2.
Proof.
  revert l2. induction l1 as [|x l1 IH]; intros [|y l2]; simpl.
  - split; [constructor | done].
  - split; [done | intros H; inversion H].
  - split; [done | intros H; inversion H].
  - rewrite andb_true_iff, IH. split.
    + intros [? ?]. by constructor.
    + intros H. by inversion H.
Qed.

(** * Facts about the strings *)

Lemma length_append (s t : string) :
  String.length (s +:+ t) = (String.length s + String.length t)%nat.
Proof. induction s as [|c s IH]; simpl; [done | by rewrite IH]. Qed.

Lemma append_neq_l (s t : string) : t <> EmptyString -> s +:+ t <> s.
Proof.
  intros Ht E. apply (f_equal String.length) in E. rewrite length_append in E.
  destruct t; [done | simpl in E; lia].
Qed.

Lemma endswith_nil (suf : string) :
  Str.endswith suf EmptyString = String.eqb EmptyString suf.
Proof. unfold Str.endswith. apply orb_false_r. Qed.

Lemma endswith_cons (suf : string) c s :
  Str.endswith suf (String c s)
  = String.eqb (String c s) suf || Str.endswith suf s.
Proof. reflexivity. Qed.

Lemma endswith_spec (suf s : string) :
  Str.endswith suf s = true <-> exists pre, s = pre +:+ suf.
Proof.
  induction s as [|c s IH].
  - rewrite endswith_nil, String.eqb_eq. split.
    + intros <-. by exists EmptyString.
    + intros [[|? ?] E]; simpl in E; [done | discriminate].
  - rewrite endswith_cons, orb_true_iff, String.eqb_eq, IH. split.
    + intros [<- | [pre ->]]; [by exists EmptyString | by exists (String c pre)].
    + intros [[|c' pre] E]; [by left |].
      injection E as -> ->. right. by exists pre.
Qed.



Lemma existsb_contains_masked ps :
  existsb (Str.contains "{opmask}") ps = true <-> masked ps.
Proof.
  unfold masked. rewrite existsb_exists.
  split; intros (p & Hp & Hc); exists p; split; try done; by apply list_elem_of_In.
Qed.

Lemma all_or_false_true (l : list bool) :
  all_or_false l = true <-> l <> [] /\ forallb id l = true.
Proof. destruct l; simpl; split; try done; try tauto; by intros [? _]. Qed.

Lemma forallb_eqb_true (reg : string) (l : list string) :
  forallb id (map (fun p => String.eqb p reg) l) = true
  <-> forall p, p ∈ l -> p = reg.
Proof.
  induction l as [|x l IH]; simpl.
  - split; [intros _ p Hp; inversion Hp | done].
  - unfold id at 1. rewrite andb_true_iff, String.eqb_eq, IH. split.
    + intros [-> H] p Hp. apply elem_of_cons in Hp as [->|Hp]; auto.
    + intros H. split; [apply H; left | intros p Hp; apply H; by right].
Qed.

Lemma all_or_false_spec (reg : string) (ps : list string) :
  all_or_false (map (fun p => String.eqb p reg) (filter register_token ps)) = true
  <-> (exists p, p ∈ ps /\ register_token p)
      /\ (forall p, p ∈ ps -> register_token p -> p = reg).
Proof.
  rewrite all_or_false_true, forallb_eqb_true. split.
  - intros [Hne H]. split.
    + destruct (filter register_token ps) as [|x l] eqn:E; [done |].
      exists x. assert (x ∈ filter register_token ps) as Hx by (rewrite E; left).
      apply list_elem_of_filter in Hx. tauto.
    + intros p Hp Hr. apply H. by apply list_elem_of_filter.
  - intros [(p & Hp & Hr) H]. split.
    + intros E. assert (p ∈ filter register_token ps) as Hin
        by (by apply list_elem_of_filter).
      apply (f_equal (@length bool)) in E. rewrite length_map in E.
      destruct (filter register_token ps); [inversion Hin | done].
    + intros q Hq. apply list_elem_of_filter in Hq as [? ?]. by apply H.
Qed.

(** * The variant expander *)


Lemma suffix_condition_spec (M : string) (parameters : list string) (s reg : string) :
  negb (Str.endswith s M)
  && all_or_false (map (fun p => String.eqb p reg)
                       (filter (fun p => p ∉ ["mem"; "imd"]) parameters)) = true
  <-> suffix_applies M parameters s reg.
Proof.
  unfold suffix_applies.
  rewrite andb_true_iff, negb_true_iff.
  by rewrite (all_or_false_spec reg parameters).
Qed.

Lemma masked_blocks_suffix (M : string) (parameters : list string) (s reg : string) :
  (s, reg) ∈ suffixes -> masked parameters -> ~ suffix_applies M parameters s reg.
Proof.
  intros Hs (p & Hp & Hc) (_ & _ & Hall).
  assert (register_token p) as Hr.
  { unfold register_token. intros Hin.
    repeat (apply elem_of_cons in Hin as [-> | Hin]; [discriminate |]).
    inversion Hin. }
  specialize (Hall p Hp Hr). subst p.
  unfold suffixes in Hs.
  repeat (apply elem_of_cons in Hs as [[= -> ->] | Hs]; [discriminate |]).
  inversion Hs.
Qed.

Lemma elem_of_suffix_variants (M : string) (parameters : list string) m ps :
  (m, ps) ∈ flat_map
       (fun '(s, reg) =>
          if negb (Str.endswith s M)
             && all_or_false
                  (map (fun p => String.eqb p reg)
                       (filter (fun p => p ∉ ["mem"; "imd"]) parameters))
          then [(M +:+ s, parameters)]
          else [])
       suffixes
  <-> exists s reg, (s, reg) ∈ suffixes /\ suffix_applies M parameters s reg
                    /\ m = M +:+ s /\ ps = parameters.
Proof.
  rewrite list_elem_of_In, in_flat_map. split.
  - intros ([s reg] & Hin & H). apply list_elem_of_In in Hin.
    destruct (negb _ && _) eqn:E; [| inversion H].
    apply suffix_condition_spec in E.
    destruct H as [[= <- <-] | []]. by exists s, reg.
  - intros (s & reg & Hin & Happ & -> & ->). exists (s, reg).
    split; [by apply list_elem_of_In |].
    apply suffix_condition_spec in Happ. rewrite Happ. by left.
Qed.

Lemma suffixes_nonempty s reg : (s, reg) ∈ suffixes -> s <> EmptyString.
Proof.
  unfold suffixes. intros H.
  repeat (apply elem_of_cons in H as [[= -> ->] | H]; [discriminate |]).
  inversion H.
Qed.

Lemma suffixes_functional s reg reg' :
  (s, reg) ∈ suffixes -> (s, reg') ∈ suffixes -> reg = reg'.
Proof.
  unfold suffixes. intros H H'.
  repeat (apply elem_of_cons in H as [[= -> ->] | H]);
    [| | | | inversion H];
    repeat (apply elem_of_cons in H' as [[= <-] | H']); try done; inversion H'.
Qed.

(** C8, as amended.  [build_variants] yields first the uppercased mnemonic
    with the parameter list unchanged; it yields the same mnemonic with
    every opmask marker removed exactly when a token carries one; for each
    suffix S of Q, L, W, B with its register token, it yields mnemonic+S
    with the parameter list unchanged exactly when the mnemonic does not end
    with S, there is at least one token that is neither [mem] nor [imd], and
    every such token is that register token; when a token carries an opmask
    marker it yields no suffixed form at all; and it yields nothing else. *)
Theorem build_variants_yields (mnemonic : string) (parameters : list string) :
  let M := Str.upper mnemonic in
  let stripped := map (Str.remove_all "{opmask}") parameters in
  let yielded := build_variants mnemonic parameters in
  head yielded = Some (M, parameters)
  /\ ((M, stripped) ∈ tail yielded <-> masked parameters)
  /\ (forall s reg, (s, reg) ∈ suffixes ->
        ((M +:+ s, parameters) ∈ yielded <-> suffix_applies M parameters s reg))
  /\ (forall s reg ps, (s, reg) ∈ suffixes -> masked parameters ->
        (M +:+ s, ps) ∉ yielded)
  /\ (forall m ps, (m, ps) ∈ yielded ->
        (m, ps) = (M, parameters)
        \/ (masked parameters /\ (m, ps) = (M, stripped))
        \/ (exists s reg, (s, reg) ∈ suffixes /\ (m, ps) = (M +:+ s, parameters))).
Proof.
  intros M stripped yielded.
  assert (Hy : yielded = (M, parameters)
     :: (if existsb (Str.contains "{opmask}") parameters then [(M, stripped)] else [])
     ++ flat_map
       (fun '(s, reg) =>
          if negb (Str.endswith s M)
             && all_or_false
                  (map (fun p => String.eqb p reg)
                       (filter (fun p => p ∉ ["mem"; "imd"]) parameters))
          then [(M +:+ s, parameters)]
          else [])
       suffixes) by reflexivity.
  assert (Hneq : forall s reg, (s, reg) ∈ suffixes -> M +:+ s <> M).
  { intros s reg Hs. apply append_neq_l. by eapply suffixes_nonempty. }
  assert (Hopt : forall m ps,
     (m, ps) ∈ (if existsb (Str.contains "{opmask}") parameters
                then [(M, stripped)] else [])
     <-> masked parameters /\ (m, ps) = (M, stripped)).
  { intros m ps. destruct (existsb _ _) eqn:E.
    - apply existsb_contains_masked in E. rewrite list_elem_of_singleton. tauto.
    - split; [intros H; inversion H |]. intros [Hm _].
      apply existsb_contains_masked in Hm. congruence. }
  rewrite Hy. split; [reflexivity |]. split; [| split; [| split]].
  - cbn [tail]. rewrite elem_of_app, Hopt, elem_of_suffix_variants. split.
    + intros [[? _] | (s & reg & Hs & _ & E & _)]; [done |].
      symmetry in E. by apply (Hneq _ _ Hs) in E.
    + intros Hm. by left.
  - intros s reg Hs.
    rewrite elem_of_cons, elem_of_app, Hopt, elem_of_suffix_variants. split.
    + intros [[= E] | [[_ [= E]] | (s' & reg' & Hs' & Happ & E & _)]].
      * by apply (Hneq _ _ Hs) in E.
      * by apply (Hneq _ _ Hs) in E.
      * apply String.app_inj in E. subst s'.
        by rewrite (suffixes_functional s reg reg').
    + intros Happ. right. right. by exists s, reg.
  - intros s reg ps Hs Hm.
    rewrite elem_of_cons, elem_of_app, Hopt, elem_of_suffix_variants.
    intros [[= E] | [[_ [= E]] | (s' & reg' & Hs' & Happ & _)]].
    + by apply (Hneq _ _ Hs) in E.
    + by apply (Hneq _ _ Hs) in E.
    + by eapply masked_blocks_suffix.
  - intros m ps.
    rewrite elem_of_cons, elem_of_app, Hopt, elem_of_suffix_variants.
    intros [E | [E | (s & reg & Hs & _ & -> & ->)]]; [by left | by right; left |].
    right. right. by exists s, reg.
Qed.

Example build_variants_MOV :
  build_variants "MOV" ["r32"; "r32"]
  = [("MOV", ["r32"; "r32"]); ("MOVL", ["r32"; "r32"])].
Proof. reflexivity. Qed.

Example build_variants_VADDPS :
  build_variants "VADDPS" ["zmm"; "zmm"; "zmm{opmask}"]
  = [("VADDPS", ["zmm"; "zmm"; "zmm{opmask}"]); ("VADDPS", ["zmm"; "zmm"; "zmm"])].
Proof. reflexivity. Qed.

(** C8, counterexample.  For [ret] without parameters, every non-memory,
    non-immediate token is [r64] (there is none) and the mnemonic does not
    end with Q, yet [RETQ] is not yielded. *)
Lemma build_variants_no_register_token :
  Str.endswith "Q" (Str.upper "ret") = false
  /\ (forall p, p ∈ ([] : list string) -> p ∉ ["mem"; "imd"] -> p = "r64")
  /\ (Str.upper "ret" +:+ "Q", []) ∉ build_variants "ret" [].
Proof.
  split; [reflexivity |]. split; [intros p Hp; inversion Hp |].
  vm_compute. intros H. apply list_elem_of_singleton in H. discriminate.
Qed.

(** * The parameter normalizer *)

Lemma split_nonempty (sep : ascii) (s : string) : Str.split sep s <> [].
Proof.
  destruct s as [|c s]; simpl; [done |].
  destruct (Ascii.eqb c sep); [done |]. by destruct (Str.split sep s).
Qed.

(** A list whose elements are all the same passes the test
    [l[1:] == l[:-1]]. *)
Lemma constant_list_slices {A} (a : A) (l : list A) :
  Forall (fun x => x = a) l -> slice_from_1 l = slice_to_last l.
Proof.
  unfold slice_from_1, slice_to_last.
  induction 1 as [|x l -> Hl IH]; [done |].
  destruct Hl as [|y l -> Hl]; [done |].
  simpl in *. by rewrite <- IH.
Qed.



Section ParameterFacts.

Variable sizes : string -> option (Z * string).

Lemma extract_parameter_suppressed parameters p :
  suppressed_operand p -> extract_parameter sizes parameters p = Ok parameters.
Proof.
  intros (z & Hz & Hnz). unfold extract_parameter. rewrite Hz. simpl.
  by rewrite bool_decide_eq_true_2.
Qed.

Lemma extract_parameters_from_suppressed pre rest parameters :
  Forall suppressed_operand pre ->
  extract_parameters_from sizes (pre ++ rest) parameters
  = extract_parameters_from sizes rest parameters.
Proof.
  induction 1 as [|p pre Hp _ IH]; [done |].
  simpl. by rewrite extract_parameter_suppressed.
Qed.

Lemma extract_parameter_masked_first p size group :
  masked_register_operand sizes p size group -> group <> "GPR" ->
  extract_parameter sizes [] p = Raise IndexError.
Proof.
  intros (Hs & Hty & txt & Htxt & Hmask & Hall) Hgroup.
  unfold extract_parameter. rewrite Hs. simpl.
  unfold attr_getitem. rewrite Hty. simpl.
  unfold extract_reg. rewrite Htxt.
  set (reg_groups := map sizes (map normalize_reg_name (Str.split "," txt))).
  assert (Hconst : Forall (fun g => g = Some (size, group)) reg_groups).
  { unfold reg_groups. rewrite map_map. apply Forall_forall. intros g Hg.
    apply list_elem_of_In, in_map_iff in Hg as (r & <- & Hr).
    apply list_elem_of_In in Hr.
    rewrite Forall_forall in Hall. by apply Hall. }
  rewrite bool_decide_eq_true_2 by (by eapply constant_list_slices).
  destruct reg_groups as [|g gs] eqn:E.
  { unfold reg_groups in E. apply map_eq_nil, map_eq_nil in E.
    by apply split_nonempty in E. }
  inversion Hconst as [|? ? -> _]. subst.
  rewrite bool_decide_eq_false_2 by done. by rewrite Hmask.
Qed.

(** C10.  When the operands that precede an operand in the order of [idx]
    are all suppressed, and that operand is a register operand whose text
    contains a brace and whose alternatives all have one register class
    other than [GPR], [extract_paramters] raises [IndexError]: the opmask
    marker is appended to the last token of an empty list. *)
Theorem extract_paramters_mask_first_IndexError
    (instruction_tag : element) (pre rest : list element) (p : element)
    (size : Z) (group : string) :
  parameter_tags instruction_tag = Ok (pre ++ p :: rest) ->
  Forall suppressed_operand pre ->
  masked_register_operand sizes p size group ->
  group <> "GPR" ->
  extract_paramters sizes instruction_tag = Raise IndexError.
Proof.
  intros Htags Hpre Hp Hgroup. unfold extract_paramters. rewrite Htags. simpl.
  rewrite extract_parameters_from_suppressed by done. simpl.
  by rewrite (extract_parameter_masked_first p size group).
Qed.

End ParameterFacts.


Lemma extract_paramters_mask_first_IndexError_witness :
  extract_paramters sample_sizes mask_first_instruction = Raise IndexError.
Proof.
  apply (extract_paramters_mask_first_IndexError sample_sizes
           mask_first_instruction
           [Element "operand" [("idx", "0"); ("type", "reg"); ("suppressed", "1")]
                    (Some "RCX") []]
           [operand "2" "reg" "EAX"]
           (operand "1" "reg" "{K1},{K2}") 64 "MASK").
  - reflexivity.
  - repeat constructor. exists 1. split; [reflexivity | lia].
  - split; [reflexivity |]. split; [reflexivity |].
    exists "{K1},{K2}". split; [reflexivity |]. split; [reflexivity |].
    repeat constructor.
  - discriminate.
Defined.

(** Operands of equal [idx] are processed in document order: a mask
    register behind a general-purpose register of the same [idx] marks
    its token, and in front of it raises [IndexError]. *)
Example extract_paramters_equal_idx :
  extract_paramters sample_sizes
    (instruction "KMOVW" [operand "1" "reg" "EAX"; operand "1" "reg" "{K1}"])
  = Ok ["r32{opmask}"]
  /\ extract_paramters sample_sizes
       (instruction "KMOVW" [operand "1" "reg" "{K1}"; operand "1" "reg" "EAX"])
     = Raise IndexError.
Proof. split; reflexivity. Qed.

(** * Sorting *)

Section SortedBy.

Context {A K : Type} (lt : K -> K -> bool) (key : A -> K).

Lemma insert_sorted_Permutation (x : A) (l : list A) :
  insert_sorted lt key x l ≡ₚ x :: l.
Proof.
  induction l as [|y l IH]; simpl; [done |].
  destruct (lt (key y) (key x)); [| done].
  rewrite IH. apply Permutation_swap.
Qed.

Lemma sorted_by_Permutation (l : list A) : sorted_by lt key l ≡ₚ l.
Proof.
  induction l as [|x l IH]; simpl; [done |].
  by rewrite insert_sorted_Permutation, IH.
Qed.

Hypothesis lt_asym : forall a b, lt a b = true -> lt b a = false.

Lemma insert_sorted_HdRel (a x : A) (l : list A) :
  ascending lt key a x -> HdRel (ascending lt key) a l -> HdRel (ascending lt key) a (insert_sorted lt key x l).
Proof.
  intros Hax Hal. destruct l as [|y l]; simpl; [by constructor |].
  destruct (lt (key y) (key x)); constructor; [| done].
  by inversion Hal.
Qed.

Lemma insert_sorted_Sorted (x : A) (l : list A) :
  Sorted (ascending lt key) l -> Sorted (ascending lt key) (insert_sorted lt key x l).
Proof.
  induction 1 as [|y l Hl IH Hy]; simpl; [by repeat constructor |].
  destruct (lt (key y) (key x)) eqn:E.
  - constructor; [done |]. apply insert_sorted_HdRel; [| done]. by apply lt_asym.
  - constructor; [by constructor |]. by constructor.
Qed.

Lemma sorted_by_Sorted (l : list A) : Sorted (ascending lt key) (sorted_by lt key l).
Proof.
  induction l as [|x l IH]; simpl; [constructor |].
  by apply insert_sorted_Sorted.
Qed.

Lemma insert_sorted_app (x : A) (l1 l2 : list A) :
  Forall (fun y => lt (key y) (key x) = true) l1 ->
  insert_sorted lt key x (l1 ++ l2) = l1 ++ insert_sorted lt key x l2.
Proof.
  induction 1 as [|y l1 Hy _ IH]; simpl; [done |]. by rewrite Hy, IH.
Qed.



End SortedBy.

(** Elements of equal key keep their order. *)
Example sorted_by_ties :
  sorted_by Z.ltb fst [(1, "a"); (1, "b"); (0, "c"); (1, "d")]
  = [(0, "c"); (1, "a"); (1, "b"); (1, "d")].
Proof. reflexivity. Qed.



(** * The order of the versions *)

Lemma string_compare_refl (s : string) : String.compare s s = Eq.
Proof.
  pose proof (String.compare_antisym s s) as H.
  destruct (String.compare s s); simpl in H; congruence.
Qed.

Lemma string_ltb_asym (s t : string) : String.ltb s t = true -> String.ltb t s = false.
Proof.
  unfold String.ltb. rewrite (String.compare_antisym t s).
  by destruct (String.compare s t).
Qed.

Lemma string_ltb_irrefl (s : string) : String.ltb s s = false.
Proof. unfold String.ltb. by rewrite string_compare_refl. Qed.









Lemma Sorted_mono {A} (R R' : relation A) (l : list A) :
  (forall a b, R a b -> R' a b) -> Sorted R l -> Sorted R' l.
Proof.
  intros HR. induction 1 as [|x l Hl IH Hx]; constructor; [done |].
  destruct Hx; constructor. by apply HR.
Qed.

(** * The port-occupancy extractor *)

Lemma float_sum_snoc (l : list float) (x : float) :
  float_sum (l ++ [x]) = SFadd prec emax (float_sum l) x.
Proof. unfold float_sum. by rewrite fold_left_app. Qed.

Lemma total_share_snoc (l : list float) (x : float) :
  total_share (l ++ [x]) = Some (Float (float_sum (l ++ [x]))).
Proof. by destruct l. Qed.

Lemma total_share_is_Some (l : list float) : is_Some (total_share l) <-> l <> [].
Proof. destruct l; simpl; split; try done. Qed.

(** The statement [occupancy[pp] += x] adds [x] to the sum of the shares
    that [pp] holds. *)
Lemma add_occupancy_share (x : float) (occ : occupancy) (pp : string)
    (l : list float) :
  dict_get pp occ = total_share l ->
  add_occupancy x occ pp = Ok (dict_set pp (Float (float_sum (l ++ [x]))) occ).
Proof.
  unfold add_occupancy. intros ->. rewrite float_sum_snoc.
  by destruct l.
Qed.

Lemma foldM_add_occupancy (x : float) (candidates : list string)
    (occ : occupancy) (held : string -> list float) :
  (forall p, dict_get p occ = total_share (held p)) ->
  exists occ',
    foldM (add_occupancy x) candidates occ = Ok occ'
    /\ forall p, dict_get p occ'
                 = total_share (held p ++ map (fun _ => x)
                                              (filter (fun pp => pp = p) candidates)).
Proof.
  revert occ held. induction candidates as [|pp candidates IH]; intros occ held H.
  - exists occ. split; [done |]. intros p. simpl. by rewrite app_nil_r.
  - cbn [foldM]. rewrite (add_occupancy_share x occ pp (held pp)) by done.
    cbn [rbind].
    destruct (IH (dict_set pp (Float (float_sum (held pp ++ [x]))) occ)
                (fun p => held p ++ if decide (pp = p) then [x] else []))
      as (occ' & E & Hocc').
    { intros p. destruct (decide (pp = p)) as [<- | Hne].
      - by rewrite dict_get_set_eq, total_share_snoc.
      - by rewrite dict_get_set_ne, app_nil_r. }
    exists occ'. split; [done |]. intros p. rewrite Hocc', filter_cons.
    destruct (decide (pp = p)); by rewrite <- app_assoc.
Qed.

Lemma count_attribute_shares (arch : string) (occ : occupancy)
    (kv : string * string) (held : string -> list float) :
  (forall ports, port_group (fst kv) = Some ports ->
     exists n q, Str.to_int (snd kv) = Some n
                 /\ equal_share n (length (potential_ports arch ports)) q) ->
  (forall p, dict_get p occ = total_share (held p)) ->
  exists occ',
    count_attribute arch occ kv = Ok occ'
    /\ forall p, dict_get p occ' = total_share (held p ++ counter_shares arch kv p).
Proof.
  destruct kv as [k v]. unfold count_attribute, counter_shares, equal_share.
  simpl. intros Hint Hocc. destruct (port_group k) as [ports|].
  - destruct (Hint ports eq_refl) as (n & q & Hn & Hq).
    unfold py_int. rewrite Hn. cbn [rbind]. rewrite Hq. cbn [rbind].
    by apply foldM_add_occupancy.
  - exists occ. split; [done |]. intros p. by rewrite app_nil_r.
Qed.

Lemma count_attributes_shares (arch : string) (items : attributes)
    (occ : occupancy) (held : string -> list float) :
  (forall k v ports, (k, v) ∈ items -> port_group k = Some ports ->
     exists n q, Str.to_int v = Some n
                 /\ equal_share n (length (potential_ports arch ports)) q) ->
  (forall p, dict_get p occ = total_share (held p)) ->
  exists occ',
    count_attributes arch items occ = Ok occ'
    /\ forall p, dict_get p occ' = total_share (held p ++ shares arch items p).
Proof.
  revert occ held. induction items as [|[k v] items IH]; intros occ held Hint Hocc.
  - exists occ. split; [done |]. intros p. simpl. by rewrite app_nil_r.
  - destruct (count_attribute_shares arch occ (k, v) held) as (occ1 & E1 & H1);
      [| done |].
    { intros ports Hp. apply (Hint k v ports); [left | done]. }
    destruct (IH occ1 (fun p => held p ++ counter_shares arch (k, v) p))
      as (occ2 & E2 & H2); [| done |].
    { intros k' v' ports Hin. apply Hint. by right. }
    exists occ2.
    change (count_attributes arch ((k, v) :: items) occ)
      with (rbind (count_attribute arch occ (k, v)) (count_attributes arch items)).
    rewrite E1. split; [done |]. intros p. rewrite H2. simpl.
    by rewrite <- app_assoc.
Qed.

(** A port receives a share exactly when it is a candidate port of a
    counter. *)
Lemma shares_candidate_port (arch : string) (items : attributes) (p : string) :
  (forall k v ports, (k, v) ∈ items -> port_group k = Some ports ->
     exists n q, Str.to_int v = Some n
                 /\ equal_share n (length (potential_ports arch ports)) q) ->
  shares arch items p <> [] <-> candidate_port arch items p.
Proof.
  intros Hint. unfold shares, candidate_port. split.
  - intros H. destruct (flat_map _ items) as [|x l] eqn:E; [done |].
    assert (Hx : x ∈ flat_map (fun kv => counter_shares arch kv p) items).
    { rewrite E. left. }
    apply list_elem_of_In, in_flat_map in Hx as ([k v] & Hin & Hx).
    apply list_elem_of_In in Hin. unfold counter_shares in Hx. simpl in Hx.
    destruct (port_group k) as [ports|] eqn:Ek; [| done].
    exists k, v, ports. split; [done |]. split; [done |].
    destruct (Str.to_int v); [| done]. destruct (true_divide _ _); [| done].
    apply in_map_iff in Hx as (pp & _ & Hpp).
    apply list_elem_of_In, list_elem_of_filter in Hpp as [-> Hpp]. done.
  - intros (k & v & ports & Hin & Hk & Hp) H.
    destruct (Hint k v ports Hin Hk) as (n & q & Hn & Hq).
    apply list_elem_of_split in Hin as (l1 & l2 & ->).
    rewrite flat_map_app in H. apply app_eq_nil in H as [_ H]. simpl in H.
    apply app_eq_nil in H as [H _]. unfold counter_shares in H. simpl in H.
    rewrite Hk, Hn, Hq in H. apply map_eq_nil in H.
    assert (Hin : p ∈ filter (fun pp => pp = p) (potential_ports arch ports)).
    { by apply list_elem_of_filter. }
    rewrite H in Hin. by apply elem_of_nil in Hin.
Qed.

(** ** What the extractor returns is a vector *)

Lemma add_occupancy_vector (x : float) (occ occ' : occupancy) (pp : string) :
  finite_float x = true -> vector occ ->
  add_occupancy x occ pp = Ok occ' -> vector occ'.
Proof.
  unfold add_occupancy. intros Hx [Hk Hv] H.
  destruct (py_add _ (Float x)) as [v|] eqn:E; [| done]. injection H as <-.
  split; [by apply unique_keys_dict_set |].
  apply values_dict_set; [done |].
  eapply py_add_not_nan; [| exact Hx | exact E].
  destruct (dict_get pp occ) as [w|] eqn:Ew; simpl; [| by eexists].
  rewrite Forall_forall in Hv. by eapply Hv, dict_get_values.
Qed.

Lemma foldM_add_occupancy_vector (x : float) (candidates : list string)
    (occ occ' : occupancy) :
  finite_float x = true -> vector occ ->
  foldM (add_occupancy x) candidates occ = Ok occ' -> vector occ'.
Proof.
  intros Hx. revert occ. induction candidates as [|pp candidates IH];
    intros occ Hocc H; simpl in H.
  - by injection H as <-.
  - destruct (add_occupancy x occ pp) as [occ1|] eqn:E; [| done].
    eapply IH; [| exact H]. by eapply add_occupancy_vector.
Qed.

Lemma count_attributes_vector (arch : string) (items : attributes)
    (occ occ' : occupancy) :
  vector occ -> count_attributes arch items occ = Ok occ' -> vector occ'.
Proof.
  revert occ. induction items as [|[k v] items IH]; intros occ Hocc H; simpl in H.
  - by injection H as <-.
  - destruct (port_group k) as [ports|]; [| by eapply IH].
    destruct (py_int v) as [n|]; [| done]. cbn [rbind] in H.
    destruct (true_divide n _) as [q|] eqn:Eq; [| done]. cbn [rbind] in H.
    destruct (foldM _ _ occ) as [occ1|] eqn:E1; [| done].
    eapply IH; [| exact H].
    eapply foldM_add_occupancy_vector; [| done | exact E1].
    by eapply true_divide_finite.
Qed.

Lemma port_occupancy_vector (attrib : attributes) (arch : string)
    (occ : occupancy) :
  port_occupancy_from_tag_attributes attrib arch = Ok occ -> vector occ.
Proof.
  unfold port_occupancy_from_tag_attributes. intros H.
  destruct (count_attributes arch attrib []) as [occ0|] eqn:E; [| done].
  apply count_attributes_vector in E; [| split; constructor].
  cbn [rbind] in H. destruct (attr_mem "div_cycles" attrib); [| by injection H as <-].
  destruct (attr_getitem "div_cycles" attrib) as [v|]; [| done]. cbn [rbind] in H.
  destruct (py_int v) as [n|]; [| done]. injection H as <-.
  destruct E as [Hk Hv]. split; [by apply unique_keys_dict_set |].
  apply values_dict_set; [done |]. by eexists.
Qed.

(** C7.  When the port counters hold integer literals whose shares are in
    the range of binary64, the extractor returns a vector in which each
    port other than [0DV] holds the sum (computed in binary64, in the order
    of the attributes) of the shares it receives, a counter giving each of
    its candidate ports its value divided by their number, and holds
    nothing when it is a candidate port of no counter; a counter on ports
    23 with value n gives n/2 to port 2 and n/2 to port 3; on HSW, BDW, SKL
    and SKX a counter on ports 237 gives n/2 to each of 2 and 3 and nothing
    to port 7, which is not among its candidates. *)
Theorem port_occupancy_divided_equally (attrib : attributes) (arch : string) :
  integer_counters attrib ->
  shares_in_range arch attrib ->
  exists occ, port_occupancy_from_tag_attributes attrib arch = Ok occ
    /\ (forall p, p <> "0DV" ->
          dict_get p occ = total_share (shares arch attrib p)
          /\ (is_Some (dict_get p occ) <-> candidate_port arch attrib p))
    /\ (forall k v n q, port_group k = Some "23" -> Str.to_int v = Some n ->
          equal_share n 2 q ->
          counter_shares arch (k, v) "2" = [q]
          /\ counter_shares arch (k, v) "3" = [q])
    /\ (arch ∈ ["HSW"; "BDW"; "SKL"; "SKX"] ->
        forall k v n q, port_group k = Some "237" -> Str.to_int v = Some n ->
          equal_share n 2 q ->
          counter_shares arch (k, v) "2" = [q]
          /\ counter_shares arch (k, v) "3" = [q]
          /\ counter_shares arch (k, v) "7" = []
          /\ "7" ∉ potential_ports arch "237").
Proof.
  intros [Hint Hdiv] Hrange.
  assert (Hcounters : forall k v ports, (k, v) ∈ attrib -> port_group k = Some ports ->
            exists n q, Str.to_int v = Some n
                        /\ equal_share n (length (potential_ports arch ports)) q).
  { intros k v ports Hin Hk. destruct (Hint k v Hin) as [n Hn]; [by eexists |].
    destruct (Hrange k v ports n Hin Hk Hn) as [q Hq]. eauto. }
  destruct (count_attributes_shares arch attrib [] (fun _ => []) Hcounters)
    as (occ & E & Hocc); [done |].
  assert (Hres : exists occ', port_occupancy_from_tag_attributes attrib arch = Ok occ'
                   /\ forall p, p <> "0DV" -> dict_get p occ' = dict_get p occ).
  { unfold port_occupancy_from_tag_attributes. rewrite E. cbn [rbind].
    unfold attr_mem, attr_getitem.
    destruct (attr_lookup "div_cycles" attrib) as [v|] eqn:Ev; [| by exists occ].
    destruct (Hdiv v eq_refl) as [n Hn]. cbn [rbind]. unfold py_int.
    rewrite Hn. cbn [rbind].
    eexists. split; [reflexivity |]. intros p Hp. by rewrite dict_get_set_ne. }
  destruct Hres as (occ' & Eres & Hsame). exists occ'. split; [done |].
  split; [| split].
  - intros p Hp. rewrite (Hsame p Hp), Hocc. simpl. split; [done |].
    rewrite total_share_is_Some. by apply shares_candidate_port.
  - intros k v n q Hk Hn Hq. unfold counter_shares, equal_share in *.
    cbn [fst snd]. rewrite Hk, Hn. unfold potential_ports.
    replace (bool_decide (arch ∈ port7_archs) && bool_decide ("23" = "237"))
      with false by (by rewrite andb_false_r).
    change (length (Str.chars "23")) with 2%nat. by rewrite Hq.
  - intros Harch k v n q Hk Hn Hq. unfold counter_shares, equal_share in *.
    cbn [fst snd]. rewrite Hk, Hn. unfold potential_ports.
    rewrite (bool_decide_eq_true_2 (arch ∈ port7_archs)) by done.
    change (length (Str.chars _)) with 2%nat. rewrite Hq.
    repeat split.
    intros H. repeat (apply elem_of_cons in H as [[=] | H]). inversion H.
Qed.

Lemma port_occupancy_divided_equally_witness :
  exists occ,
    port_occupancy_from_tag_attributes
      [("port23", "2"); ("port237", "3"); ("uops", "2")] "SKL" = Ok occ
    /\ dict_get "2" occ = Some (Float (S754_finite false 5629499534213120 (-51)))
    /\ dict_get "7" occ = None.
Proof.
  destruct (port_occupancy_divided_equally
              [("port23", "2"); ("port237", "3"); ("uops", "2")] "SKL")
    as (occ & E & Hocc & _).
  - split.
    + intros k v Hin _.
      repeat (apply elem_of_cons in Hin as [[= -> ->] | Hin]; [by eexists |]).
      inversion Hin.
    + intros v [=].
  - intros k v ports n Hin Hk Hn.
    repeat (apply elem_of_cons in Hin as [[= -> ->] | Hin];
            [vm_compute in Hk, Hn;
             first [ discriminate Hk
                   | injection Hk as <-; injection Hn as <-;
                     eexists; vm_compute; reflexivity ] |]).
    inversion Hin.
  - exists occ. split; [exact E |]. revert E. vm_compute. intros [= <-].
    split; reflexivity.
Defined.

(** * The model table builder *)

Lemma io_bind_Ok {A B} (m : io A) (f : A -> io B) out (b : B) :
  io_bind m f = (out, Ok b) ->
  exists out1 a out2, m = (out1, Ok a) /\ f a = (out2, Ok b) /\ out = out1 ++ out2.
Proof.
  destruct m as [out1 [a | e]]; simpl; [| discriminate].
  destruct (f a) as [out2 r] eqn:E. intros [= <- ->]. by exists out1, a, out2.
Qed.

Lemma io_bind_lift_Ok {A B} (r : result A) (f : A -> io B) out (b : B) :
  io_bind (lift r) f = (out, Ok b) -> exists a, r = Ok a /\ f a = (out, Ok b).
Proof.
  intros H. apply io_bind_Ok in H as (out1 & a & out2 & [= <- ->] & Hf & ->).
  by exists a.
Qed.

Lemma io_bind_run {A B} (m : io A) (f : A -> io B) out1 a :
  m = (out1, Ok a) -> io_bind m f = (out1 ++ fst (f a), snd (f a)).
Proof. intros ->. simpl. by destruct (f a). Qed.


Lemma extract_instruction_Ok sizes arch st instruction_tag out st' :
  extract_instruction sizes arch st instruction_tag = (out, Ok st') ->
  instruction_outcome sizes arch st instruction_tag out st'.
Proof.
  unfold extract_instruction. intros H.
  apply io_bind_lift_Ok in H as (mnemonic & Hasm & H).
  unfold attr_getitem in Hasm.
  destruct (attr_lookup "asm" (attrib instruction_tag)) as [m|] eqn:Easm;
    [| discriminate]. injection Hasm as ->.
  apply io_bind_Ok in H as (out_p & params & out1 & Hp & H & ->).
  destruct (find_architecture arch instruction_tag) as [arch_tag|] eqn:Earch.
  2:{ injection H as <- <-. rewrite app_nil_r.
      by eapply outcome_no_architecture. }
  apply io_bind_Ok in H as (out_c & c & out2 & Hc & H & ->).
  apply io_bind_lift_Ok in H as (iacas & Hi & H).
  apply io_bind_lift_Ok in H as (ivs & Hv & H).
  destruct (ignore c) eqn:Eign.
  { injection H as <- <-. rewrite app_nil_r.
    eapply outcome_skipped; eauto. }
  destruct (port_occupancy c ++ ivs) as [|po0 pos] eqn:Epo.
  { injection H as <- <-. rewrite app_nil_r.
    eapply outcome_skipped; eauto. }
  apply io_bind_Ok in H as (out3 & [] & out4 & Hprint & H & ->).
  apply io_bind_lift_Ok in H as (throughput & Hmax & H).
  destruct params as [ps|]; [| discriminate].
  injection H as <- <-. rewrite app_nil_r.
  eapply outcome_added; eauto.
  f_equal. f_equal.
  destruct (negb _); by injection Hprint as <-.
Qed.


Lemma last_List_last {A} (l : list A) (a : A) : last (a :: l) = Some (List.last l a).
Proof.
  revert a. induction l as [|b l IH]; intros a; [reflexivity |].
  rewrite last_cons_cons, IH. destruct l as [|c l]; [reflexivity |].
  change (List.last (b :: c :: l) a) with (List.last (c :: l) a).
  pose proof (IH a) as Ha. rewrite last_cons_cons in Ha.
  pose proof (IH b) as Hb. rewrite last_cons_cons in Hb. congruence.
Qed.

(** What [max] gives for the values of a vector and 0.0 is the floored
    maximum of the vector. *)
Lemma py_max_floor (po : occupancy) (t : number) :
  vector po -> py_max (values po ++ [Float zero]) = Ok t -> floor_max t po.
Proof.
  intros [Hk Hv] H.
  assert (Hall : Forall not_nan (values po ++ [Float zero])).
  { apply Forall_app. split; [done |]. by repeat constructor; eexists. }
  destruct (values po ++ [Float zero]) as [|x l] eqn:E.
  { by destruct (values po). }
  injection H as <-. apply Forall_cons in Hall as [Hx Hl].
  destruct (max_from_ge x l Hx Hl) as [Hxm Hlm].
  assert (Hge : forall y, y ∈ values po ++ [Float zero] -> num_le y (max_from x l)).
  { rewrite E. intros y Hy. apply elem_of_cons in Hy as [-> | Hy]; auto. }
  split; [| split].
  - apply Hge. apply elem_of_app. right. left.
  - intros p v Hp. apply Hge. apply elem_of_app. left.
    by eapply dict_get_values.
  - pose proof (max_from_elem x l) as Hin. rewrite <- E in Hin.
    apply elem_of_app in Hin as [Hin | Hin].
    + right. by apply elem_of_values.
    + left. by apply list_elem_of_singleton in Hin.
Qed.

Lemma py_max_total (po : occupancy) :
  exists t, py_max (values po ++ [Float zero]) = Ok t.
Proof.
  destruct (values po ++ [Float zero]) as [|x l] eqn:E; [| by eexists].
  by destruct (values po).
Qed.

(** The collected vectors are vectors. *)
Lemma mapM_vector_of (arch : string) (records : list element)
    (vs : list occupancy) :
  mapM (vector_of arch) records = Ok vs -> Forall vector vs.
Proof.
  revert vs. induction records as [|r records IH]; intros vs H; simpl in H.
  - injection H as <-. constructor.
  - destruct (vector_of arch r) as [po|] eqn:E; [| done]. cbn [rbind] in H.
    destruct (mapM (vector_of arch) records) as [vs'|]; [| done].
    injection H as <-. constructor; [| by apply IH].
    by eapply port_occupancy_vector.
Qed.

Lemma collect_measurement_vectors (arch mnemonic : string) (c : collected)
    (m : element) (out : list diagnostic) (c' : collected) :
  collect_measurement arch mnemonic c m = (out, Ok c') ->
  Forall vector (port_occupancy c) -> Forall vector (port_occupancy c').
Proof.
  unfold collect_measurement. intros H Hc.
  apply io_bind_lift_Ok in H as (po & Hpo & H).
  apply io_bind_lift_Ok in H as (ls & Hls & H).
  assert (Hnew : Forall vector (port_occupancy c ++ [po])).
  { apply Forall_app. split; [done |]. constructor; [| constructor].
    by eapply port_occupancy_vector. }
  destruct (bool_decide _).
  - apply io_bind_Ok in H as (? & [] & ? & _ & [= _ <-] & _). done.
  - destruct ls; by injection H as _ <-.
Qed.

Lemma collect_measurements_vectors (arch mnemonic : string) (ms : list element)
    (c : collected) (out : list diagnostic) (c' : collected) :
  collect_measurements arch mnemonic ms c = (out, Ok c') ->
  Forall vector (port_occupancy c) -> Forall vector (port_occupancy c').
Proof.
  revert c out. induction ms as [|m ms IH]; intros c out H Hc; simpl in H.
  - by injection H as _ <-.
  - apply io_bind_Ok in H as (out1 & c1 & out2 & H1 & H2 & _).
    eapply IH; [exact H2 |]. by eapply collect_measurement_vectors.
Qed.

Section ModelFacts.

Variable sizes : string -> option (Z * string).

Lemma variant_entries_fields mnemonic ps throughput latency po e :
  e ∈ variant_entries mnemonic ps throughput latency po ->
  entry_throughput e = throughput /\ entry_latency e = latency
  /\ entry_port_occupancy e = po.
Proof.
  unfold variant_entries. intros H.
  apply list_elem_of_In, in_map_iff in H as ([m p] & <- & _). done.
Qed.

Lemma extract_instruction_derived arch st instruction_tag out st' :
  extract_instruction sizes arch st instruction_tag = (out, Ok st') ->
  Forall derived_throughput (model_data st) ->
  Forall derived_throughput (model_data st').
Proof.
  intros H Hst. apply extract_instruction_Ok in H.
  destruct H as [? ? _ _ _ -> | ? ? ? ? ? ? ? ? _ _ _ _ _ _ _ _ ->
                 | mnemonic out_p ps arch_tag out_c c iacas ivs po0 pos throughput
                     _ _ _ Hc _ Hivs _ Hseq Hmax _ ->]; try done.
  simpl. apply Forall_app. split; [done |].
  apply Forall_forall. intros e He.
  apply variant_entries_fields in He as (Ht & _ & Hpo).
  unfold derived_throughput. rewrite Ht, Hpo.
  assert (Hvec : vector (List.last pos po0)).
  { assert (Hall : Forall vector (po0 :: pos)).
    { rewrite <- Hseq. apply Forall_app. split.
      - by eapply collect_measurements_vectors; [exact Hc | constructor].
      - by eapply mapM_vector_of. }
    rewrite Forall_forall in Hall. apply Hall.
    pose proof (last_List_last pos po0) as Hl. apply last_Some in Hl as [l' ->].
    apply elem_of_app. right. left. }
  destruct Hvec as [Hk Hv]. done.
Qed.

Lemma extract_instructions_derived arch instruction_tags st out st' :
  extract_instructions sizes arch instruction_tags st = (out, Ok st') ->
  Forall derived_throughput (model_data st) ->
  Forall derived_throughput (model_data st').
Proof.
  revert st out. induction instruction_tags as [|i rest IH]; intros st out H Hst.
  - by injection H as <- <-.
  - simpl in H. apply io_bind_Ok in H as (out1 & st1 & out2 & H1 & H2 & ->).
    eapply IH; [exact H2 |]. by eapply extract_instruction_derived.
Qed.

(** C3.  In the table that [extract_model] returns, the throughput of every
    entry is the greatest occupancy of the entry's own port-occupancy
    vector floored at 0: it is not negative, no occupancy of the vector
    exceeds it, it is 0 or one of the occupancies, and it is 0 for the
    empty vector; two entries with the same vector have the same
    throughput. *)
Theorem throughput_is_floored_maximum (tree : element) (arch : string)
    (out : list diagnostic) (table : list entry) (e : entry) :
  extract_model sizes tree arch = (out, Ok table) ->
  e ∈ table ->
  let t := entry_throughput e in
  let po := entry_port_occupancy e in
  num_le (Float zero) t
  /\ (forall p v, dict_get p po = Some v -> num_le v t)
  /\ (t = Float zero \/ exists p, dict_get p po = Some t)
  /\ (po = [] -> t = Float zero)
  /\ (forall e', e' ∈ table -> entry_port_occupancy e' = po ->
        entry_throughput e' = t).
Proof.
  unfold extract_model. intros H He.
  apply io_bind_Ok in H as (out1 & st & out2 & H & [= <- <-] & ->).
  apply extract_instructions_derived in H; [| by constructor].
  rewrite Forall_forall in H. destruct (H e He) as (Hk & Hv & Hmax).
  destruct (py_max_floor (entry_port_occupancy e) (entry_throughput e))
    as (H0 & Hub & Hin); [done | done |]. simpl.
  split; [done |]. split; [done |]. split; [done |]. split.
  - intros Hempty. rewrite Hempty in Hmax. by injection Hmax.
  - intros e' He' Hsame. destruct (H e' He') as (_ & _ & Hmax').
    rewrite Hsame in Hmax'. congruence.
Qed.

End ModelFacts.

(** * The measurement reconciler *)




Lemma collect_measurement_run arch mnemonic c m po ls :
  vector_of arch m = Ok po -> latency_samples m = Ok ls ->
  collect_measurement arch mnemonic c m
  = if bool_decide (slice_from_1 ls <> slice_to_last ls)
    then ([ContradictingLatencies mnemonic],
          Ok (Collected (port_occupancy c ++ [po]) true (latency c)))
    else ([], Ok (Collected (port_occupancy c ++ [po]) (ignore c)
                            (match ls with l0 :: _ => Some l0 | [] => latency c end))).
Proof.
  unfold vector_of, collect_measurement. intros -> ->. simpl.
  destruct (bool_decide _); [done |]. by destruct ls.
Qed.

(** The test [l[1:] != l[:-1]] finds out whether two elements of [l]
    differ. *)
Lemma slices_equal_constant {A} (l : list A) :
  slice_from_1 l = slice_to_last l -> forall x y, x ∈ l -> y ∈ l -> x = y.
Proof.
  unfold slice_from_1, slice_to_last.
  induction l as [|a l IH]; intros E x y Hx Hy; [inversion Hx |].
  destruct l as [|b l]; simpl in E.
  - apply list_elem_of_singleton in Hx, Hy. congruence.
  - injection E as -> E.
    assert (Hall : forall z, z ∈ a :: l -> z = a).
    { intros z Hz. symmetry. apply IH; [exact E | left | exact Hz]. }
    assert (Hall' : forall z, z ∈ a :: a :: l -> z = a).
    { intros z Hz. apply elem_of_cons in Hz as [-> | Hz]; auto. }
    by rewrite (Hall' x), (Hall' y).
Qed.

Lemma slices_differ_iff {A} `{EqDecision A} (l : list A) :
  slice_from_1 l <> slice_to_last l <-> exists x y, x ∈ l /\ y ∈ l /\ x <> y.
Proof.
  split.
  - intros Hne. destruct l as [|a l]; [done |].
    destruct (decide (Forall (fun x => x = a) (a :: l))) as [Hall | Hnall].
    + by apply constant_list_slices in Hall.
    + apply not_Forall_Exists in Hnall; [| apply _].
      apply Exists_exists in Hnall as (x & Hx & Hxa).
      exists x, a. split; [done |]. split; [left | done].
  - intros (x & y & Hx & Hy & Hxy) E. apply Hxy.
    by eapply slices_equal_constant.
Qed.

(** ** The latency samples *)

Lemma mapM_total {A B} (f : A -> result B) (l : list A) :
  (forall x, x ∈ l -> exists y, f x = Ok y) -> exists l', mapM f l = Ok l'.
Proof.
  induction l as [|x l IH]; intros H; [by eexists |].
  destruct (H x) as [y Hy]; [left |].
  destruct IH as [l' Hl']; [intros z Hz; apply H; by right |].
  exists (y :: l'). simpl. by rewrite Hy, Hl'.
Qed.

Lemma mapM_Ok_elem_of {A B} (f : A -> result B) (l : list A) (l' : list B) :
  mapM f l = Ok l' -> forall y, y ∈ l' <-> exists x, x ∈ l /\ f x = Ok y.
Proof.
  revert l'. induction l as [|x l IH]; intros l' H y; simpl in H.
  - injection H as <-. split; [by intros ?%elem_of_nil |].
    by intros (? & ?%elem_of_nil & _).
  - destruct (f x) as [z|] eqn:E; [| done]. cbn [rbind] in H.
    destruct (mapM f l) as [zs|]; [| done]. injection H as <-.
    rewrite elem_of_cons, (IH zs eq_refl). split.
    + intros [-> | (x' & Hx' & Hy)]; [exists x; split; [left | done] |].
      exists x'. split; [by right | done].
    + intros (x' & Hx' & Hy). apply elem_of_cons in Hx' as [-> | Hx'].
      * left. congruence.
      * right. eauto.
Qed.

Lemma latency_sample_filter (m l_tag : element) :
  l_tag ∈ filter (fun l_tag => attr_mem "latency" (attrib l_tag) = true)
                 (iter "latency" m)
  <-> latency_sample m l_tag.
Proof.
  rewrite list_elem_of_filter. unfold latency_sample, attr_mem.
  destruct (attr_lookup "latency" (attrib l_tag)); split; by intros [? ?].
Qed.

Lemma cycle_count_read (l_tag : element) (c : Z) :
  (v <- attr_getitem "cycles" (attrib l_tag) ;; py_int v) = Ok c
  <-> cycle_count l_tag c.
Proof.
  unfold cycle_count, attr_getitem, py_int.
  destruct (attr_lookup "cycles" (attrib l_tag)) as [v|]; simpl.
  - destruct (Str.to_int v) as [z|] eqn:E; split.
    + intros [= ->]. eauto.
    + intros (v' & [= <-] & Hv'). congruence.
    + done.
    + intros (v' & [= <-] & Hv'). congruence.
  - split; [done | by intros (? & ? & _)].
Qed.

(** The list of the comprehension holds the cycle counts of the latency
    samples, and the test on it finds out whether two of them differ. *)
Lemma latency_samples_read (m : element) :
  readable_latencies m ->
  exists ls, latency_samples m = Ok ls
    /\ (slice_from_1 ls <> slice_to_last ls <-> contradicting_latencies m).
Proof.
  intros Hread. unfold latency_samples.
  destruct (mapM_total
              (fun l_tag => v <- attr_getitem "cycles" (attrib l_tag) ;; py_int v)
              (filter (fun l_tag => attr_mem "latency" (attrib l_tag) = true)
                      (iter "latency" m))) as [ls Hls].
  { intros l Hl. apply latency_sample_filter, Hread in Hl as [c Hc].
    exists c. by apply cycle_count_read. }
  exists ls. split; [done |].
  pose proof (mapM_Ok_elem_of _ _ _ Hls) as Hin.
  rewrite slices_differ_iff. unfold contradicting_latencies. split.
  - intros (c1 & c2 & H1 & H2 & Hne).
    apply Hin in H1 as (l1 & Hl1 & Hc1). apply Hin in H2 as (l2 & Hl2 & Hc2).
    exists l1, l2, c1, c2.
    rewrite <- !latency_sample_filter, <- !cycle_count_read. done.
  - intros (l1 & l2 & c1 & c2 & Hl1 & Hl2 & Hc1 & Hc2 & Hne).
    exists c1, c2. split; [| split; [| done]]; apply Hin.
    + exists l1. by rewrite latency_sample_filter, cycle_count_read.
    + exists l2. by rewrite latency_sample_filter, cycle_count_read.
Qed.

Lemma collect_measurements_total arch mnemonic ms c0 mvs :
  mapM (vector_of arch) ms = Ok mvs ->
  Forall readable_latencies ms ->
  exists out c,
    collect_measurements arch mnemonic ms c0 = (out, Ok c)
    /\ port_occupancy c = port_occupancy c0 ++ mvs
    /\ (ignore c = true <-> ignore c0 = true \/ Exists contradicting_latencies ms)
    /\ (Exists contradicting_latencies ms -> ContradictingLatencies mnemonic ∈ out).
Proof.
  revert c0 mvs. induction ms as [|m ms IH]; intros c0 mvs Hv Hl.
  - injection Hv as <-. exists [], c0. simpl. rewrite app_nil_r.
    repeat split; try tauto.
    + intros [? | H]; [done | inversion H].
    + intros H. inversion H.
  - simpl in Hv. destruct (vector_of arch m) as [po|] eqn:Epo; [| discriminate].
    simpl in Hv. destruct (mapM (vector_of arch) ms) as [mvs'|] eqn:Emvs;
      [| discriminate]. injection Hv as <-.
    inversion Hl as [|? ? Hread Hl']. subst.
    destruct (latency_samples_read m Hread) as (ls & Els & Htest).
    pose proof (collect_measurement_run arch mnemonic c0 m po ls Epo Els) as Hrun.
    simpl collect_measurements.
    destruct (bool_decide (slice_from_1 ls <> slice_to_last ls)) eqn:Edis.
    + apply bool_decide_eq_true in Edis.
      destruct (IH (Collected (port_occupancy c0 ++ [po]) true (latency c0)) mvs'
                  eq_refl Hl') as (out & c & E & Hpo & Hign & Hout).
      exists (ContradictingLatencies mnemonic :: out), c.
      rewrite (io_bind_run _ _ _ _ Hrun), E. simpl in *.
      split; [done |]. split; [by rewrite Hpo, <- app_assoc |].
      split; [| intros _; left].
      split; [intros _ | intros _; apply Hign; by left].
      right. left. by apply Htest.
    + apply bool_decide_eq_false in Edis.
      destruct (IH (Collected (port_occupancy c0 ++ [po]) (ignore c0)
                      (match ls with l0 :: _ => Some l0 | [] => latency c0 end))
                  mvs' eq_refl Hl') as (out & c & E & Hpo & Hign & Hout).
      exists out, c.
      rewrite (io_bind_run _ _ _ _ Hrun), E. simpl in *.
      split; [done |]. split; [by rewrite Hpo, <- app_assoc |].
      assert (Hex : Exists contradicting_latencies (m :: ms)
                    <-> Exists contradicting_latencies ms).
      { rewrite Exists_cons. split; [| tauto].
        intros [Hm | ?]; [| done]. by apply Htest in Hm. }
      rewrite Hex. split; [done |]. exact Hout.
Qed.

(** ** The comparison of the vectors *)




Section ReconcilerFacts.

Variable sizes : string -> option (Z * string).

Lemma extract_instruction_run arch st instruction_tag mnemonic out_p params
    arch_tag out_c c iacas ivs :
  attr_lookup "asm" (attrib instruction_tag) = Some mnemonic ->
  try_extract_paramters sizes st instruction_tag = (out_p, Ok params) ->
  find_architecture arch instruction_tag = Some arch_tag ->
  collect_measurements arch mnemonic (iter "measurement" arch_tag)
    (Collected [] false None) = (out_c, Ok c) ->
  iaca_tags arch_tag = Ok iacas ->
  mapM (vector_of arch) iacas = Ok ivs ->
  extract_instruction sizes arch st instruction_tag
  = if ignore c then (out_p ++ out_c, Ok (LoopState (model_data st) params))
    else
      match port_occupancy c ++ ivs with
      | [] => (out_p ++ out_c, Ok (LoopState (model_data st) params))
      | po0 :: pos =>
          let po := List.last pos po0 in
          (out_p ++ out_c
           ++ (if negb (list_eqb dict_eqb (slice_from_1 (po0 :: pos))
                                          (slice_to_last (po0 :: pos)))
               then [ContradictingPortOccupancies mnemonic] else []),
           match py_max (values po ++ [Float zero]), params with
           | Ok throughput, Some ps =>
               Ok (LoopState
                     (model_data st
                      ++ variant_entries mnemonic ps throughput (latency c) po)
                     (Some ps))
           | Ok _, None => Raise (UnboundLocalError "parameters")
           | Raise e, _ => Raise e
           end)
      end.
Proof.
  intros Hasm Hp Harch Hc Hi Hv. unfold extract_instruction, attr_getitem.
  rewrite Hasm. cbn [lift io_bind]. rewrite Hp, Harch. cbn [io_bind].
  rewrite Hc. cbn [io_bind]. rewrite Hi. cbn [lift io_bind].
  change (mapM _ iacas) with (mapM (vector_of arch) iacas). rewrite Hv.
  cbn [io_bind]. destruct (ignore c).
  { simpl. by rewrite !app_nil_r. }
  destruct (port_occupancy c ++ ivs) as [|po0 pos].
  { simpl. by rewrite !app_nil_r. }
  cbn zeta.
  destruct (py_max_total (List.last pos po0)) as (t & ->).
  destruct (negb _); destruct params; simpl;
    by rewrite ?app_nil_r, ?app_assoc.
Qed.

(** C1, as amended.  When one of the measurement records of an instruction
    has two latency samples (latency elements that carry a [latency]
    attribute) with different cycle counts, every latency sample of the
    instruction has a cycle count, and the records of the instruction are
    read without an exception, the iteration for the instruction prints a
    latency contradiction and leaves the table as it was: the instruction
    gets no entry. *)
Theorem latency_contradiction_excludes_instruction
    (arch : string) (st : loop_state) (instruction_tag : element)
    (mnemonic : string) (out_p : list diagnostic) (params : option (list string))
    (arch_tag : element) (mvs : list occupancy) (iacas : list element)
    (ivs : list occupancy) :
  attr_lookup "asm" (attrib instruction_tag) = Some mnemonic ->
  try_extract_paramters sizes st instruction_tag = (out_p, Ok params) ->
  find_architecture arch instruction_tag = Some arch_tag ->
  mapM (vector_of arch) (iter "measurement" arch_tag) = Ok mvs ->
  Forall readable_latencies (iter "measurement" arch_tag) ->
  iaca_tags arch_tag = Ok iacas ->
  mapM (vector_of arch) iacas = Ok ivs ->
  Exists contradicting_latencies (iter "measurement" arch_tag) ->
  exists out st',
    extract_instruction sizes arch st instruction_tag = (out, Ok st')
    /\ ContradictingLatencies mnemonic ∈ out
    /\ model_data st' = model_data st.
Proof.
  intros Hasm Hp Harch Hmv Hl Hi Hv Hex.
  destruct (collect_measurements_total arch mnemonic _ (Collected [] false None)
              mvs Hmv Hl) as (out_c & c & Hc & _ & Hign & Hout).
  rewrite (extract_instruction_run arch st instruction_tag mnemonic out_p params
             arch_tag out_c c iacas ivs) by done.
  replace (ignore c) with true by (symmetry; apply Hign; by right).
  eexists _, _. split; [reflexivity |]. split; [| done].
  apply elem_of_app. right. by apply Hout.
Qed.



End ReconcilerFacts.

(** * Runs on the sample documents *)







(** C5, run on a failing input.  The second operand lists a general-purpose
    register and a vector register; [extract_paramters] returns the token
    of the first operand alone, and raises nothing. *)
Theorem mixed_register_classes_emit_nothing :
  extract_paramters sample_sizes mixed_class_instruction = Ok ["xmm"].
Proof. reflexivity. Qed.

(** C6, run on a failing input.  The first instruction of the document
    names an unknown register and has a measurement for the architecture;
    the [ValueError] is printed, and the run ends with an
    [UnboundLocalError] before the second instruction is reached. *)
Theorem first_operand_failure_ends_run :
  extract_model sample_sizes unknown_register_document "SKL"
  = ([PrintedError
        (UnknownRegisterType [("idx", "1"); ("type", "reg")] "NOREG")],
     Raise (UnboundLocalError "parameters")).
Proof. vm_compute. reflexivity. Qed.

(** C4, run on a failing input.  The only latency element of the
    measurement carries a cycle count of 3 and no [latency] attribute; the
    entries of the instruction have no latency. *)
Theorem cycle_count_without_latency_attribute_ignored :
  exists table,
    extract_model sample_sizes latency_document "SKL" = ([], Ok table)
    /\ map entry_name table = ["add-r32_r32"; "addl-r32_r32"]
    /\ map entry_latency table = [None; None].
Proof. eexists. split; [vm_compute; reflexivity |]. split; reflexivity. Qed.

(** The measurement record of [contradicting_instruction] has two latency
    samples, of 1 and of 2 cycles. *)
Lemma contradicting_instruction_latencies :
  Forall readable_latencies
    (iter "measurement"
       (architecture "SKL"
          [measurement [("port0156", "1")]
             [latency_tag [("latency", "1"); ("cycles", "1")];
              latency_tag [("latency", "1"); ("cycles", "2")]];
           IACA "2.1" [("port015", "1")]]))
  /\ Exists contradicting_latencies
       (iter "measurement"
          (architecture "SKL"
             [measurement [("port0156", "1")]
                [latency_tag [("latency", "1"); ("cycles", "1")];
                 latency_tag [("latency", "1"); ("cycles", "2")]];
              IACA "2.1" [("port015", "1")]])).
Proof.
  split.
  - constructor; [| constructor]. intros l [Hl _].
    apply elem_of_cons in Hl as [-> | Hl];
      [exists 1; by exists "1" |].
    apply elem_of_cons in Hl as [-> | Hl];
      [exists 2; by exists "2" |].
    by apply elem_of_nil in Hl.
  - apply Exists_cons_hd.
    exists (latency_tag [("latency", "1"); ("cycles", "1")]),
           (latency_tag [("latency", "1"); ("cycles", "2")]), 1, 2.
    split; [split; [left | by eexists] |].
    split; [split; [right; left | by eexists] |].
    split; [by exists "1" |]. split; [by exists "2" | done].
Qed.

(** C1, counterexample.  A measurement record of the instruction has the
    latency samples 1 and 2; the contradiction is printed and the table is
    empty. *)
Lemma latency_contradiction_drops_instruction :
  exists arch_tag,
    find_architecture "SKL" contradicting_instruction = Some arch_tag
    /\ Exists contradicting_latencies (iter "measurement" arch_tag)
    /\ extract_model sample_sizes (document [contradicting_instruction]) "SKL"
       = ([ContradictingLatencies "ADD"], Ok []).
Proof.
  eexists. split; [reflexivity |]. split; [| vm_compute; reflexivity].
  apply contradicting_instruction_latencies.
Qed.


Lemma latency_contradiction_excludes_instruction_witness :
  exists out st',
    extract_instruction sample_sizes "SKL" (LoopState [] None)
      contradicting_instruction = (out, Ok st')
    /\ ContradictingLatencies "ADD" ∈ out
    /\ model_data st' = [].
Proof.
  eapply (latency_contradiction_excludes_instruction sample_sizes "SKL"
            (LoopState [] None) contradicting_instruction "ADD" []
            (Some ["r32"; "r32"])).
  - reflexivity.
  - reflexivity.
  - reflexivity.
  - vm_compute. reflexivity.
  - apply contradicting_instruction_latencies.
  - reflexivity.
  - vm_compute. reflexivity.
  - apply contradicting_instruction_latencies.
Defined.


Lemma throughput_is_floored_maximum_witness :
  exists out table e,
    extract_model sample_sizes (document [two_versions_instruction]) "SKL"
    = (out, Ok table)
    /\ e ∈ table
    /\ num_le (Float zero) (entry_throughput e)
    /\ (forall p v, dict_get p (entry_port_occupancy e) = Some v ->
          num_le v (entry_throughput e))
    /\ (entry_throughput e = Float zero
        \/ exists p, dict_get p (entry_port_occupancy e) = Some (entry_throughput e)).
Proof.
  destruct (extract_model sample_sizes (document [two_versions_instruction]) "SKL")
    as [out [[|e table]|]] eqn:E; try (vm_compute in E; discriminate E).
  exists out, (e :: table), e. split; [reflexivity |].
  assert (He : e ∈ e :: table) by left. split; [exact He |].
  destruct (throughput_is_floored_maximum sample_sizes
              (document [two_versions_instruction]) "SKL" out (e :: table) e E He)
    as (H0 & Hub & Hin & _).
  by repeat split.
Defined.

(** Two analyzer records of one version are taken in document order: the
    vector of the second one is the authoritative one. *)
Example equal_versions_in_document_order :
  exists out table v,
    extract_model sample_sizes
      (document
         [instruction "ADD"
            [operand "1" "reg" "EAX"; operand "2" "reg" "EBX";
             architecture "SKL"
               [IACA "2.1" [("port0156", "1")]; IACA "2.1" [("port015", "1")]]]])
      "SKL" = (out, Ok table)
    /\ vector_of "SKL" (IACA "2.1" [("port015", "1")]) = Ok v
    /\ out = [ContradictingPortOccupancies "ADD"]
    /\ map entry_port_occupancy table = [v; v].
Proof. eexists _, _, _. repeat split; vm_compute; reflexivity. Qed.

(** * Decimal numerals *)


Lemma digit_char_digit (d : Z) :
  0 <= d < 10 ->
  Str.is_digit (Str.digit_char d) = true /\ Str.digit_val (Str.digit_char d) = d.
Proof.
  intros H.
  assert (d = 0 \/ d = 1 \/ d = 2 \/ d = 3 \/ d = 4 \/ d = 5 \/ d = 6 \/ d = 7
          \/ d = 8 \/ d = 9) as Hd by lia.
  repeat (destruct Hd as [-> | Hd]; [by vm_compute |]). subst. by vm_compute.
Qed.

Lemma digit_not_space (c : ascii) : Str.is_digit c = true -> Str.is_space c = false.
Proof.
  unfold Str.is_digit, Str.is_space. generalize (Str.code c). intros n.
  rewrite andb_true_iff, !N.leb_le. intros [? ?].
  apply orb_false_iff. split; apply andb_false_iff.
  - right. apply N.leb_gt. lia.
  - right. apply N.leb_gt. lia.
Qed.

Lemma digits_of_all_digits (fuel : nat) (n : Z) (acc : string) :
  0 <= n -> all_chars Str.is_digit acc = true ->
  all_chars Str.is_digit (Str.digits_of fuel n acc) = true.
Proof.
  revert n acc. induction fuel as [|fuel IH]; intros n acc Hn Hacc; simpl.
  - destruct (digit_char_digit (n mod 10)) as [-> _];
      [by apply Z.mod_pos_bound | done].
  - assert (all_chars Str.is_digit (String (Str.digit_char (n mod 10)) acc) = true)
      as Hacc'.
    { simpl. destruct (digit_char_digit (n mod 10)) as [-> _];
      [by apply Z.mod_pos_bound | done]. }
    destruct (n / 10 =? 0); [done |]. apply IH; [| done].
    apply Z.div_pos; lia.
Qed.

Lemma int_digits_digits_of (fuel : nat) (n : Z) (rest : string) (b : bool) :
  0 <= n < 10 ^ (Z.of_nat fuel + 1) ->
  Str.int_digits (Str.digits_of fuel n rest) 0 b = Str.int_digits rest n true.
Proof.
  assert (Hone : forall n rest a b, 0 <= n ->
    Str.int_digits (String (Str.digit_char (n mod 10)) rest) a b
    = Str.int_digits rest (10 * a + n mod 10) true).
  { intros n' rest' a b' Hn'. simpl.
    destruct (digit_char_digit (n' mod 10)) as [-> ->];
      [by apply Z.mod_pos_bound | done]. }
  revert n rest b. induction fuel as [|fuel IH]; intros n rest b Hn.
  - simpl Str.digits_of. rewrite Hone by lia.
    change (10 ^ (Z.of_nat 0 + 1)) with 10 in Hn.
    rewrite Z.mod_small by lia. f_equal.
  - simpl Str.digits_of. destruct (Z.eqb_spec (n / 10) 0) as [E | E].
    + rewrite Hone by lia. f_equal.
      pose proof (Z.div_mod n 10). lia.
    + rewrite IH.
      * rewrite Hone by lia. f_equal.
        pose proof (Z.div_mod n 10). lia.
      * split; [apply Z.div_pos; lia |].
        apply Z.div_lt_upper_bound; [lia |].
        replace (Z.of_nat (S fuel) + 1) with (Z.succ (Z.of_nat fuel + 1)) in Hn by lia.
        rewrite Z.pow_succ_r in Hn by lia. lia.
Qed.

Lemma log2_fuel (n : Z) : 0 <= n -> n < 10 ^ (Z.of_nat (Z.to_nat (Z.log2 n)) + 1).
Proof.
  intros Hn. rewrite Z2Nat.id by apply Z.log2_nonneg.
  destruct (Z.eq_dec n 0) as [-> | Hne]; [done |].
  pose proof (Z.log2_spec n) as [_ Hlt]; [lia |].
  eapply Z.lt_le_trans; [exact Hlt |].
  rewrite <- Z.add_1_r.
  apply Z.pow_le_mono_l. pose proof (Z.log2_nonneg n). lia.
Qed.

Lemma rstrip_no_space (s : string) :
  all_chars (fun c => negb (Str.is_space c)) s = true -> Str.rstrip s = s.
Proof.
  induction s as [|c s IH]; simpl; [done |].
  rewrite andb_true_iff, negb_true_iff. intros [Hc Hs].
  rewrite (IH Hs), Hc. by destruct s.
Qed.

Lemma strip_no_space (s : string) :
  all_chars (fun c => negb (Str.is_space c)) s = true -> Str.strip s = s.
Proof.
  intros H. unfold Str.strip.
  assert (Str.lstrip s = s) as ->.
  { destruct s as [|c s]; simpl in *; [done |].
    apply andb_true_iff in H as [Hc _]. apply negb_true_iff in Hc. by rewrite Hc. }
  by apply rstrip_no_space.
Qed.

Lemma all_chars_impl (P Q : ascii -> bool) (s : string) :
  (forall c, P c = true -> Q c = true) ->
  all_chars P s = true -> all_chars Q s = true.
Proof.
  intros HPQ. induction s as [|c s IH]; simpl; [done |].
  rewrite !andb_true_iff. intros [? ?]. auto.
Qed.

Lemma to_int_digits (s : string) :
  all_chars Str.is_digit s = true -> Str.to_int s = Str.int_digits s 0 false.
Proof.
  intros H. unfold Str.to_int. rewrite strip_no_space.
  2:{ revert H. apply all_chars_impl. intros c Hc.
      by rewrite (digit_not_space c Hc). }
  destruct s as [|c s]; [done |]. simpl in H.
  apply andb_true_iff in H as [Hc _].
  destruct c as [[] [] [] [] [] [] [] []]; try discriminate Hc; reflexivity.
Qed.

Lemma to_int_of_nonneg (n : Z) : 0 <= n -> Str.to_int (Str.of_nonneg n) = Some n.
Proof.
  intros Hn. unfold Str.of_nonneg.
  rewrite to_int_digits by (by apply digits_of_all_digits).
  rewrite int_digits_digits_of; [done |].
  split; [done | by apply log2_fuel].
Qed.

Lemma to_int_of_int (z : Z) : Str.to_int (Str.of_int z) = Some z.
Proof.
  unfold Str.of_int. destruct (Z.ltb_spec z 0) as [Hneg | Hpos].
  2:{ by apply to_int_of_nonneg. }
  pose proof (digits_of_all_digits (Z.to_nat (Z.log2 (- z))) (- z) EmptyString
                ltac:(lia) eq_refl) as Hd.
  fold (Str.of_nonneg (- z)) in Hd.
  unfold Str.to_int. rewrite strip_no_space.
  2:{ simpl. revert Hd. apply all_chars_impl. intros c Hc.
      by rewrite (digit_not_space c Hc). }
  pose proof (to_int_of_nonneg (- z) ltac:(lia)) as H.
  rewrite to_int_digits in H by done. rewrite H. simpl. f_equal. lia.
Qed.

Lemma int_or_zero_of_int (z : Z) : int_or_zero (Str.of_int z) = z.
Proof. unfold int_or_zero, py_int. by rewrite to_int_of_int. Qed.

(** * The tabular serializer *)

Lemma py_max_int_spec (l : list Z) (m : Z) :
  py_max_int l = Ok m -> m ∈ l /\ forall x, x ∈ l -> x <= m.
Proof.
  destruct l as [|a l]; [discriminate |]. simpl. intros [= <-].
  revert a. induction l as [|b l IH]; intros a; simpl.
  - split; [left |]. intros x Hx. apply list_elem_of_singleton in Hx. lia.
  - destruct (Z.ltb_spec a b) as [Hlt | Hge].
    + destruct (IH b) as [Hin Hub]. split; [by right |].
      intros x Hx. apply elem_of_cons in Hx as [-> | Hx]; [| by apply Hub].
      specialize (Hub b ltac:(left)). lia.
    + destruct (IH a) as [Hin Hub]. split.
      * apply elem_of_cons in Hin as [E | Hin]; [rewrite E; left | by right; right].
      * intros x Hx. apply elem_of_cons in Hx as [-> | Hx]; [by apply Hub; left |].
        apply elem_of_cons in Hx as [-> | Hx].
        -- specialize (Hub a ltac:(left)). lia.
        -- apply Hub. by right.
Qed.

Lemma py_max_int_intro (l : list Z) (m : Z) :
  m ∈ l -> (forall x, x ∈ l -> x <= m) -> py_max_int l = Ok m.
Proof.
  intros Hin Hub. destruct (py_max_int l) as [m'|e] eqn:E.
  - apply py_max_int_spec in E as [Hin' Hub'].
    f_equal. specialize (Hub m' Hin'). specialize (Hub' m Hin). lia.
  - destruct l; [inversion Hin | discriminate].
Qed.

Lemma index_from_app (x : string) (pre post : list string) (i : nat) :
  x ∉ pre -> index_from x (pre ++ x :: post) i = Ok (i + length pre)%nat.
Proof.
  revert i. induction pre as [|y pre IH]; intros i Hx; simpl.
  - rewrite String.eqb_refl. f_equal. lia.
  - apply not_elem_of_cons in Hx as [Hne Hx].
    destruct (String.eqb_spec y x) as [-> | _]; [done |].
    rewrite IH by done. f_equal. lia.
Qed.

Lemma py_insert_after (x a : string) (pre post : list string) :
  py_insert (length pre + 1) x (pre ++ a :: post) = pre ++ a :: x :: post.
Proof.
  unfold py_insert.
  replace (pre ++ a :: post) with ((pre ++ [a]) ++ post) by (by rewrite <- app_assoc).
  rewrite take_app_length', drop_app_length'
    by (rewrite length_app; simpl; lia).
  by rewrite <- app_assoc.
Qed.

(** One iteration of the [while] loop, when the numeral of the greatest
    number stands in the list. *)
Lemma extend_ports_step_run (pre post : list string) (m : Z) :
  Str.of_int m ∉ pre ->
  (forall x, x ∈ pre ++ post -> int_or_zero x <= m) ->
  extend_ports_step (pre ++ Str.of_int m :: post)
  = Ok (pre ++ Str.of_int m :: Str.of_int (m + 1) :: post).
Proof.
  intros Hpre Hub. unfold extend_ports_step.
  assert (Hmax : py_max_int (map int_or_zero (pre ++ Str.of_int m :: post)) = Ok m).
  { apply py_max_int_intro.
    - rewrite map_app. apply elem_of_app. right. simpl.
      rewrite int_or_zero_of_int. left.
    - intros x Hx. apply list_elem_of_In, in_map_iff in Hx as (p & <- & Hp).
      apply list_elem_of_In, elem_of_app in Hp as [Hp | Hp].
      + apply Hub, elem_of_app. by left.
      + apply elem_of_cons in Hp as [-> | Hp].
        * rewrite int_or_zero_of_int. lia.
        * apply Hub, elem_of_app. by right. }
  rewrite Hmax. simpl. unfold py_index. rewrite index_from_app by done. simpl.
  by rewrite py_insert_after.
Qed.

Lemma of_int_inj (a b : Z) : Str.of_int a = Str.of_int b -> a = b.
Proof.
  intros H. apply (f_equal int_or_zero) in H. by rewrite !int_or_zero_of_int in H.
Qed.

Section SerializerFacts.

Variable arch_dict : gmap string Z.
Variable arch_pipeline_ports : gmap string (list string).

(** The [while] loop inserts the numerals of the successors of the greatest
    number, one after the other, behind that number. *)
Lemma extend_ports_run (arch : string) (n : Z) (k fuel : nat)
    (pre post : list string) (m : Z) :
  port_count arch_dict arch_pipeline_ports arch = Ok n ->
  k = Z.to_nat (n - Z.of_nat (length (pre ++ Str.of_int m :: post))) ->
  (k <= fuel)%nat ->
  Str.of_int m ∉ pre ->
  (forall x, x ∈ pre ++ post -> int_or_zero x <= m) ->
  extend_ports arch_dict arch_pipeline_ports fuel arch (pre ++ Str.of_int m :: post)
  = Some (Ok (pre ++ map Str.of_int (seqZ m (Z.of_nat k + 1)) ++ post)).
Proof.
  intros Hn. revert fuel pre m.
  induction k as [|k IH]; intros fuel pre m Hk Hfuel Hpre Hub.
  - destruct fuel; simpl; rewrite Hn;
      (destruct (Z.ltb_spec (Z.of_nat (length (pre ++ Str.of_int m :: post))) n);
       [lia | done]).
  - destruct fuel as [|fuel]; [lia |]. simpl. rewrite Hn.
    destruct (Z.ltb_spec (Z.of_nat (length (pre ++ Str.of_int m :: post))) n);
      [| lia].
    rewrite extend_ports_step_run by done.
    replace (pre ++ Str.of_int m :: Str.of_int (m + 1) :: post)
      with ((pre ++ [Str.of_int m]) ++ Str.of_int (m + 1) :: post)
      by (by rewrite <- app_assoc).
    rewrite IH.
    + f_equal. f_equal. rewrite <- app_assoc. f_equal.
      rewrite (seqZ_cons m (Z.of_nat (S k) + 1)) by lia.
      replace (Z.succ m) with (m + 1) by lia.
      replace (Z.pred (Z.of_nat (S k) + 1)) with (Z.of_nat k + 1) by lia.
      reflexivity.
    + rewrite !length_app in *. cbn [length] in *. lia.
    + lia.
    + intros Hin. apply elem_of_app in Hin as [Hin | Hin].
      * specialize (Hub (Str.of_int (m + 1))).
        rewrite int_or_zero_of_int in Hub.
        assert (m + 1 <= m); [| lia]. apply Hub, elem_of_app. by left.
      * apply list_elem_of_singleton, of_int_inj in Hin. lia.
    + intros x Hx. rewrite <- app_assoc in Hx.
      apply elem_of_app in Hx as [Hx | Hx].
      * assert (int_or_zero x <= m); [| lia]. apply Hub, elem_of_app. by left.
      * apply elem_of_cons in Hx as [-> | Hx].
        -- rewrite int_or_zero_of_int. lia.
        -- assert (int_or_zero x <= m); [| lia]. apply Hub, elem_of_app. by right.
Qed.

End SerializerFacts.

(** ** The rows *)


Lemma string_ltb_false_le (a b : string) : String.ltb b a = false <-> String.le a b.
Proof.
  unfold String.le, String.ltb, String.leb. rewrite (String.compare_antisym a b).
  destruct (String.compare b a); simpl; split; try done.
Qed.

Lemma string_le_neq_lt (a b : string) : String.le a b -> a <> b -> string_lt a b.
Proof.
  unfold String.le, string_lt, String.leb, String.ltb.
  destruct (String.compare a b) eqn:E; try done.
  apply String.compare_eq_iff in E. done.
Qed.

Lemma sorted_strings (l : list string) :
  NoDup l ->
  sorted_by String.ltb id l ≡ₚ l
  /\ StronglySorted String.le (sorted_by String.ltb id l)
  /\ StronglySorted string_lt (sorted_by String.ltb id l).
Proof.
  intros Hnd.
  pose proof (sorted_by_Permutation String.ltb id l) as Hperm.
  assert (Hle : StronglySorted String.le (sorted_by String.ltb id l)).
  { apply Sorted_StronglySorted; [apply _ |].
    eapply Sorted_mono; [| apply (sorted_by_Sorted String.ltb id string_ltb_asym)].
    intros a b H. by apply string_ltb_false_le. }
  split; [done |]. split; [done |].
  rewrite <- Hperm in Hnd. revert Hnd Hle.
  generalize (sorted_by String.ltb id l). intros s.
  induction s as [|a s IH]; intros Hnd Hle; [constructor |].
  apply NoDup_cons in Hnd as [Ha Hnd]. apply StronglySorted_inv in Hle as [Hs Hall].
  constructor; [by apply IH |].
  rewrite Forall_forall in Hall. apply Forall_forall. intros b Hb.
  apply string_le_neq_lt; [by apply Hall |]. intros ->. done.
Qed.

Lemma elem_of_seen_ports (model_data : list entry) (p : string) :
  p ∈ seen_ports model_data
  <-> exists e, e ∈ model_data /\ is_Some (dict_get p (entry_port_occupancy e)).
Proof.
  unfold seen_ports. rewrite sorted_by_Permutation, elem_of_elements.
  rewrite elem_of_union_list. split.
  - intros (X & HX & Hp). apply list_elem_of_In, in_map_iff in HX as (e & <- & He).
    exists e. split; [by apply list_elem_of_In |].
    apply dict_get_is_Some. by apply elem_of_list_to_set in Hp.
  - intros (e & He & Hp). exists (list_to_set (keys (entry_port_occupancy e))). split.
    + apply list_elem_of_In, in_map_iff. exists e. split; [done |].
      by apply list_elem_of_In.
    + apply elem_of_list_to_set. by apply dict_get_is_Some.
Qed.

Lemma NoDup_seen_ports (model_data : list entry) : NoDup (seen_ports model_data).
Proof. unfold seen_ports. rewrite sorted_by_Permutation. apply NoDup_elements. Qed.

Lemma decide_elem_of_cons {B} (p q : string) (ports : list string) (x y : B) :
  (if decide (p ∈ q :: ports) then x else y)
  = if decide (p = q) then x else if decide (p ∈ ports) then x else y.
Proof.
  destruct (decide (p = q)) as [-> | Hne].
  - destruct (decide (q ∈ q :: ports)) as [? | Hn]; [done |]. destruct Hn. left.
  - destruct (decide (p ∈ ports)), (decide (p ∈ q :: ports)) as [Hin | Hn]; try done.
    + destruct Hn. by right.
    + apply elem_of_cons in Hin as [? | ?]; done.
Qed.

Lemma fill_ports_lookup (ports : list string) (po : occupancy) (p : string) :
  dict_get p (fill_ports ports po)
  = match dict_get p po with
    | Some v => Some v
    | None => if decide (p ∈ ports) then Some (Float zero) else None
    end.
Proof.
  unfold fill_ports. revert po.
  induction ports as [|q ports IH]; intros po; cbn [fold_left].
  - destruct (dict_get p po); [done |].
    destruct (decide (p ∈ [])) as [H | ?]; [inversion H | done].
  - rewrite IH, decide_elem_of_cons. destruct (dict_get q po) eqn:Eq.
    + destruct (dict_get p po) eqn:Ep; [done |].
      destruct (decide (p = q)) as [-> | ?]; [congruence | done].
    + destruct (decide (p = q)) as [-> | Hne].
      * by rewrite dict_get_set_eq, Eq.
      * rewrite dict_get_set_ne by done. by destruct (dict_get p po).
Qed.

Lemma fill_ports_unique_keys (ports : list string) (po : occupancy) :
  unique_keys po -> unique_keys (fill_ports ports po).
Proof.
  unfold fill_ports. revert po.
  induction ports as [|q ports IH]; intros po Hpo; cbn [fold_left]; [done |].
  apply IH. destruct (dict_get q po); [done |]. by apply unique_keys_dict_set.
Qed.

Lemma num_ltb_asym (a b : number) : num_ltb a b = true -> num_ltb b a = false.
Proof.
  unfold num_ltb. rewrite (num_compare_antisym a b).
  by destruct (num_compare a b) as [[]|].
Qed.

Lemma item_ltb_asym (a b : string * number) :
  item_ltb a b = true -> item_ltb b a = false.
Proof.
  destruct a as [a1 a2], b as [b1 b2]. unfold item_ltb. simpl.
  rewrite orb_true_iff, andb_true_iff. intros [Hlt | [Heq Hq]].
  - rewrite (string_ltb_asym _ _ Hlt). simpl.
    destruct (String.eqb_spec b1 a1) as [-> | ?]; [| done].
    by rewrite string_ltb_irrefl in Hlt.
  - apply String.eqb_eq in Heq as ->. rewrite string_ltb_irrefl, String.eqb_refl.
    simpl. by apply num_ltb_asym.
Qed.

Lemma item_ascending_key (a b : string * number) :
  ascending item_ltb id a b -> String.le (fst a) (fst b).
Proof.
  unfold ascending, item_ltb, id. intros H.
  apply orb_false_iff in H as [H _]. by apply string_ltb_false_le.
Qed.

Lemma map_snd_of_fst {A B} (f : A -> B) (l : list (A * B)) :
  Forall (fun kv => snd kv = f (fst kv)) l -> map snd l = map f (map fst l).
Proof. induction 1 as [|[k v] l Hkv _ IH]; simpl in *; [done |]. by rewrite Hkv, IH. Qed.

(** A row lists, for the ports in ascending order, the occupancy of the
    entry, and 0 for a port the entry does not use. *)
Lemma csv_line_ports (ports : list string) (e : entry) :
  NoDup ports ->
  unique_keys (entry_port_occupancy e) ->
  (forall p, is_Some (dict_get p (entry_port_occupancy e)) -> p ∈ ports) ->
  line_ports (csv_line_of ports e)
  = map (fun p => default (Float zero) (dict_get p (entry_port_occupancy e)))
        (sorted_by String.ltb id ports).
Proof.
  intros Hnd Hunique Hdom. unfold csv_line_of. cbn [line_ports].
  set (po := entry_port_occupancy e) in *.
  set (filled := fill_ports ports po).
  set (items := sorted_by item_ltb id filled).
  assert (Hitems : items ≡ₚ filled) by apply sorted_by_Permutation.
  assert (Hfilled_keys : unique_keys filled) by (by apply fill_ports_unique_keys).
  assert (Hfilled : forall p, is_Some (dict_get p filled) <-> p ∈ ports).
  { intros p. unfold filled. rewrite fill_ports_lookup.
    destruct (dict_get p po) eqn:Ep.
    - split; [intros _; apply Hdom; eauto | eauto].
    - destruct (decide (p ∈ ports)); split; try done; eauto. }
  assert (Hkeys : map fst items = sorted_by String.ltb id ports).
  { destruct (sorted_strings ports Hnd) as (Hperm & Hle & _).
    apply (StronglySorted_unique String.le); [| done |].
    - apply Sorted_StronglySorted; [apply _ |].
      apply (Sorted_fmap fst (ascending item_ltb id)).
      + apply item_ascending_key.
      + apply sorted_by_Sorted, item_ltb_asym.
    - rewrite Hperm. apply NoDup_Permutation; [| done |].
      + change (map fst items) with (items.*1). by rewrite Hitems.
      + intros p. rewrite <- Hfilled, dict_get_is_Some.
        change (map fst items) with (items.*1). by rewrite Hitems. }
  rewrite <- Hkeys. apply map_snd_of_fst.
  apply Forall_forall. intros [k v] Hkv. rewrite Hitems in Hkv.
  apply elem_dict_get in Hkv; [| done]. unfold filled in Hkv.
  rewrite fill_ports_lookup in Hkv. simpl.
  destruct (dict_get k po); [by injection Hkv |].
  destruct (decide (k ∈ ports)); [by injection Hkv | discriminate].
Qed.

Global Instance of_int_Inj : Inj (=) (=) Str.of_int.
Proof. intros a b. apply of_int_inj. Qed.

(** The list with the synthetic ports is still free of duplicates. *)
Lemma NoDup_extended (pre post : list string) (m len : Z) :
  0 < len ->
  NoDup (pre ++ Str.of_int m :: post) ->
  (forall x, x ∈ pre ++ post -> int_or_zero x <= m) ->
  NoDup (pre ++ map Str.of_int (seqZ m len) ++ post).
Proof.
  intros Hlen Hnd Hub.
  apply NoDup_app in Hnd as (Hpre & Hdisj & Hrest).
  apply NoDup_cons in Hrest as [Hm Hpost].
  assert (Hmid : forall x, x ∈ map Str.of_int (seqZ m len) ->
                           x = Str.of_int m \/ m < int_or_zero x).
  { intros x Hx. apply list_elem_of_In, in_map_iff in Hx as (j & <- & Hj).
    apply list_elem_of_In, elem_of_seqZ in Hj. rewrite int_or_zero_of_int.
    destruct (Z.eq_dec j m) as [-> | ?]; [by left | right; lia]. }
  apply NoDup_app. split; [done |]. split.
  - intros x Hx Hin. apply elem_of_app in Hin as [Hin | Hin].
    + apply Hmid in Hin as [-> | Hlt].
      * apply (Hdisj _ Hx). left.
      * assert (int_or_zero x <= m); [| lia]. apply Hub, elem_of_app. by left.
    + apply (Hdisj _ Hx). by right.
  - apply NoDup_app. split; [| split; [| done]].
    + apply (NoDup_fmap_2 Str.of_int), NoDup_seqZ.
    + intros x Hx Hin. apply Hmid in Hx as [-> | Hlt]; [done |].
      assert (int_or_zero x <= m); [| lia]. apply Hub, elem_of_app. by right.
Qed.

Section SerializerRows.

Variable arch_dict : gmap string Z.
Variable arch_pipeline_ports : gmap string (list string).

(** When the architecture has a declared port count and the numeral of
    the greatest number among the ports seen in the table is one of these
    ports, [dump_csv] returns (with enough fuel for its loop) one line per
    entry, for the list of ports obtained from the sorted seen ports by
    inserting, directly behind that numeral, the numerals of its
    successors, as many as are missing to reach the port count plus the
    extra pipeline ports; every line holds one number per port of that
    list, in ascending lexicographic order of the ports: the occupancy of
    the entry, and 0.0 for a port the entry does not use. *)
Theorem dump_csv_dense_rows (model_data : list entry) (arch : string) (n m : Z) :
  Forall (fun e => unique_keys (entry_port_occupancy e)) model_data ->
  arch_dict !! arch = Some n ->
  py_max_int (map int_or_zero (seen_ports model_data)) = Ok m ->
  Str.of_int m ∈ seen_ports model_data ->
  let target := n + Z.of_nat (length (default [] (arch_pipeline_ports !! arch))) in
  let k := Z.to_nat (target - Z.of_nat (length (seen_ports model_data))) in
  exists pre post,
    seen_ports model_data = pre ++ Str.of_int m :: post
    /\ let ports := pre ++ map Str.of_int (seqZ m (Z.of_nat k + 1)) ++ post in
       let columns := sorted_by String.ltb id ports in
       (forall fuel, (k <= fuel)%nat ->
          dump_csv arch_dict arch_pipeline_ports fuel model_data arch
          = Some (Ok (map (csv_line_of ports) model_data)))
       /\ Z.of_nat (length ports)
          = Z.max target (Z.of_nat (length (seen_ports model_data)))
       /\ columns ≡ₚ ports
       /\ StronglySorted string_lt columns
       /\ (forall e, e ∈ model_data ->
             line_ports (csv_line_of ports e)
             = map (fun p => default (Float zero)
                                     (dict_get p (entry_port_occupancy e)))
                   columns).
Proof.
  intros Hunique Harch Hmax Hin target k.
  destruct (list_elem_of_split _ _ Hin) as (pre & post & Eseen).
  exists pre, post. split; [done |].
  pose proof (NoDup_seen_ports model_data) as Hnd. rewrite Eseen in Hnd.
  assert (Hpre : Str.of_int m ∉ pre).
  { apply NoDup_app in Hnd as (_ & Hdisj & _). intros H. apply (Hdisj _ H). left. }
  assert (Hub : forall x, x ∈ pre ++ post -> int_or_zero x <= m).
  { apply py_max_int_spec in Hmax as [_ Hub]. intros x Hx. apply Hub.
    apply list_elem_of_In, in_map, list_elem_of_In. rewrite Eseen.
    apply elem_of_app in Hx as [? | ?]; apply elem_of_app; [by left | right; by right]. }
  assert (Hcount : port_count arch_dict arch_pipeline_ports arch = Ok target).
  { unfold port_count. by rewrite Harch. }
  assert (Hnd' : NoDup (pre ++ map Str.of_int (seqZ m (Z.of_nat k + 1)) ++ post)).
  { apply NoDup_extended; [lia | done | done]. }
  destruct (sorted_strings _ Hnd') as (Hperm & _ & Hlt).
  cbn zeta. split; [| split; [| split; [done | split; [done |]]]].
  - intros fuel Hfuel. unfold dump_csv. rewrite Eseen.
    rewrite (extend_ports_run arch_dict arch_pipeline_ports arch target k fuel);
      try done.
    unfold k. by rewrite Eseen.
  - subst k. rewrite Eseen.
    repeat (rewrite ?length_app, ?length_map, ?length_seqZ; cbn [length]). lia.
  - intros e He. apply csv_line_ports; [done | |].
    { rewrite Forall_forall in Hunique. by apply Hunique. }
    intros p Hp.
    assert (p ∈ seen_ports model_data) as Hseen by (apply elem_of_seen_ports; eauto).
    rewrite Eseen in Hseen. rewrite !elem_of_app.
    apply elem_of_app in Hseen as [? | Hseen]; [by left |].
    apply elem_of_cons in Hseen as [-> | ?]; [| by right; right].
    right. left. apply list_elem_of_In, in_map, list_elem_of_In, elem_of_seqZ. lia.
Qed.

End SerializerRows.


(** C9, run on failing inputs.  The table of a document whose only
    instruction uses no port has one entry, with the empty vector; for an
    architecture with declared ports [dump_csv] then raises the
    [ValueError] of [max] on an empty list, however long its loop may run,
    and returns no line.  With the divider pipeline as the only port of
    the table, it raises the [ValueError] of [list.index]. *)
Theorem dump_csv_without_numeric_port :
  extract_model sample_sizes nop_document "SKL"
  = ([], Ok (table_of nop_document "SKL"))
  /\ map entry_name (table_of nop_document "SKL") = ["nop-"]
  /\ map entry_port_occupancy (table_of nop_document "SKL") = [[]]
  /\ (forall fuel,
        dump_csv sample_arch_dict sample_arch_pipeline_ports (S fuel)
          (table_of nop_document "SKL") "SKL"
        = Some (Raise (ValueError MaxOfEmpty)))
  /\ extract_model sample_sizes divider_document "SKL"
     = ([], Ok (table_of divider_document "SKL"))
  /\ map entry_port_occupancy (table_of divider_document "SKL")
     = [[("0DV", Int 4)]]
  /\ (forall fuel,
        dump_csv sample_arch_dict sample_arch_pipeline_ports (S fuel)
          (table_of divider_document "SKL") "SKL"
        = Some (Raise (ValueError (NotInList "0")))).
Proof.
  split; [vm_compute; reflexivity |]. split; [vm_compute; reflexivity |].
  split; [vm_compute; reflexivity |]. split.
  { intros fuel. unfold dump_csv.
    replace (seen_ports (table_of nop_document "SKL")) with (@nil string)
      by (vm_compute; reflexivity).
    reflexivity. }
  split; [vm_compute; reflexivity |]. split; [vm_compute; reflexivity |].
  intros fuel. unfold dump_csv.
  replace (seen_ports (table_of divider_document "SKL")) with ["0DV"]
    by (vm_compute; reflexivity).
  reflexivity.
Qed.
